(** * Video transcript indexing and search: chunker, index writer, retriever

    A shallow embedding of [indexer.py], [transcript.py] and the
    functions of [index.py] that do not prompt the user.

    - Python exceptions are values of [exn] (class name and message); a
      computation that may raise returns a [result].
    - JSON numbers (caption start times and durations, match scores) are
      exact rationals [Q]; binary floating-point rounding is outside the
      model.  [int(x)] is truncation toward zero.
    - [datetime.timedelta] is modelled as the standard library documents
      it: normalisation into days and seconds, the range check on days,
      and the [__str__] rendering including its day prefix.
    - The embedding service, the transcript service and the vector store
      are collaborators: their answers are parameters of the model, and
      every request sent to them is recorded in the [world].
    - Lines written with [console.print] and [print] are part of the
      world; progress bars and status spinners are display only and are
      left out. *)

From Stdlib Require Import QArith Qround Lqa Ascii.
From stdpp Require Import base gmap strings list pretty sorting.

Open Scope string_scope.
Open Scope list_scope.
Open Scope Z_scope.

(** ** Exceptions and fallible results *)

Record exn := Exn { exn_class : string; exn_msg : string }.

Inductive result (A : Type) : Type :=
| Ok (a : A)
| Raise (e : exn).
Arguments Ok {A} a.
Arguments Raise {A} e.

Definition result_bind {A B} (r : result A) (k : A -> result B) : result B :=
  match r with
  | Ok a => k a
  | Raise e => Raise e
  end.

Declare Scope result_scope.
Delimit Scope result_scope with result.
Notation "x <-! c ; k" := (result_bind c (fun x => k))
  (at level 100, c at next level, right associativity) : result_scope.
Open Scope result_scope.

(** ** Python built-ins used by the chunker *)

(** [int(x)] on a number: truncation toward zero. *)
Definition py_int (x : Q) : Z := Z.quot (Qnum x) (Z.pos (Qden x)).

(** [range(start, stop, step)]: a zero step raises [ValueError]; a
    negative step walks down, a positive step walks up.  The walk takes
    at most [|stop - start|] steps, which bounds the recursion. *)
Fixpoint range_up (fuel : nat) (i stop step : Z) : list Z :=
  match fuel with
  | O => []
  | S fuel' => if i <? stop then i :: range_up fuel' (i + step) stop step else []
  end.

Fixpoint range_down (fuel : nat) (i stop step : Z) : list Z :=
  match fuel with
  | O => []
  | S fuel' => if stop <? i then i :: range_down fuel' (i + step) stop step else []
  end.

Definition py_range (start stop step : Z) : result (list Z) :=
  if step =? 0 then Raise (Exn "ValueError" "range() arg 3 must not be zero")
  else if 0 <? step then Ok (range_up (Z.to_nat (stop - start)) start stop step)
  else Ok (range_down (Z.to_nat (start - stop)) start stop step).

(** A slice bound is clamped into [0, len]; a negative bound counts from
    the end. *)
Definition py_slice_bound (len i : Z) : Z :=
  if i <? 0 then Z.max 0 (i + len) else Z.min i len.

(** [l[lo:hi]] *)
Definition py_slice {A} (l : list A) (lo hi : Z) : list A :=
  let n := Z.of_nat (length l) in
  let a := py_slice_bound n lo in
  let b := py_slice_bound n hi in
  take (Z.to_nat (b - a)) (drop (Z.to_nat a) l).

(** ["%0<w>d" % n] *)
Definition zero_pad (width : nat) (n : Z) : string :=
  let digits := pretty (Z.abs n) in
  let sign := if n <? 0 then "-" else "" in
  let fill := (width - String.length sign - String.length digits)%nat in
  sign +:+ String.concat "" (replicate fill "0") +:+ digits.

(** ** [datetime.timedelta] *)

Record timedelta := mk_timedelta { days : Z; seconds : Z; microseconds : Z }.

Definition MAX_DELTA_DAYS : Z := 999999999.

(** [timedelta(seconds=n)] for an integer [n]: [divmod] by the length of
    a day, then the range check on the day count.  The message is the
    one CPython gives for a day count that fits a C int; nothing below
    depends on it. *)
Definition timedelta_of_seconds (n : Z) : result timedelta :=
  let d := n / 86400 in
  let s := n mod 86400 in
  if MAX_DELTA_DAYS <? Z.abs d
  then Raise (Exn "OverflowError"
                  ("days=" +:+ pretty d +:+ "; must have magnitude <= 999999999"))
  else Ok (mk_timedelta d s 0).

(** [str(td)]: ["H:MM:SS"], with ["D day(s), "] in front when the day
    count is not zero and the microseconds behind when they are not. *)
Definition timedelta_str (td : timedelta) : string :=
  let mm := seconds td / 60 in
  let ss := seconds td mod 60 in
  let hh := mm / 60 in
  let mm := mm mod 60 in
  let s := pretty hh +:+ ":" +:+ zero_pad 2 mm +:+ ":" +:+ zero_pad 2 ss in
  let s := if days td =? 0 then s
           else pretty (days td) +:+ " day"
                  +:+ (if Z.abs (days td) =? 1 then "" else "s") +:+ ", " +:+ s in
  if microseconds td =? 0 then s
  else s +:+ "." +:+ zero_pad 6 (microseconds td).

(** [str(timedelta(seconds=int(t)))] *)
Definition format_seconds (t : Q) : result string :=
  td <-! timedelta_of_seconds (py_int t);
  Ok (timedelta_str td).

(** ** Data model *)

(** One caption of a transcript: the dict with keys [text], [start] and
    [duration]. *)
Record entry := mk_entry { e_text : string; e_start : Q; e_duration : Q }.

(** A chunk: the dict built by [create_chunks]. *)
Record chunk := mk_chunk {
  c_text : string;
  c_start_time : Q;
  c_end_time : Q;
  c_start_formatted : string;
  c_end_formatted : string
}.

(** ** [create_chunks] *)

(** The body of the loop for one slice of the transcript. *)
Definition make_chunk (group : list entry) : result chunk :=
  let text := String.concat " " (map e_text group) in
  match head group, last group with
  | Some first, Some final =>
      let start_time := e_start first in
      let end_time := (e_start final + e_duration final)%Q in
      sf <-! format_seconds start_time;
      ef <-! format_seconds end_time;
      Ok (mk_chunk text start_time end_time sf ef)
  | _, _ => Raise (Exn "IndexError" "list index out of range")
  end.

(** [for i in range(...)]: each turn appends one chunk to [chunks]. *)
Fixpoint create_chunks_loop (transcript_data : list entry) (chunk_size : Z)
    (indices : list Z) (chunks : list chunk) : result (list chunk) :=
  match indices with
  | [] => Ok chunks
  | i :: rest =>
      c <-! make_chunk (py_slice transcript_data i (i + chunk_size));
      create_chunks_loop transcript_data chunk_size rest (chunks ++ [c])
  end.

Definition create_chunks (transcript_data : list entry) (chunk_size : Z)
    : result (list chunk) :=
  indices <-! py_range 0 (Z.of_nat (length transcript_data)) chunk_size;
  create_chunks_loop transcript_data chunk_size indices [].

Definition default_chunk_size : Z := 3.

(** ** JSON text of a transcript

    The text handed from [get_json_transcript] to
    [index_video_transcript] is represented by the document it encodes:
    [null], an array of caption objects, or text that is not JSON (with
    the decoder's complaint). *)
Inductive json_text :=
| json_null
| json_array (captions : list entry)
| json_invalid (complaint : string).

Definition json_dumps (v : option (list entry)) : json_text :=
  match v with
  | None => json_null
  | Some captions => json_array captions
  end.

Definition json_loads (s : json_text) : result (option (list entry)) :=
  match s with
  | json_null => Ok None
  | json_array captions => Ok (Some captions)
  | json_invalid complaint => Raise (Exn "JSONDecodeError" complaint)
  end.

(** ** Collaborators and the world they live in *)

Definition vector := list Q.

(** The arguments of one [genai.embed_content] call. *)
Record embed_request := mk_embed_request {
  model : string;
  content : string;
  task_type : string
}.

Record metadata := mk_metadata {
  md_video_id : string;
  md_text : string;
  md_start_time : Q;
  md_end_time : Q;
  md_start_formatted : string;
  md_end_formatted : string
}.

(** One element of the [vectors] list given to [index.upsert]. *)
Record item := mk_item { id : string; values : vector; item_metadata : metadata }.

(** One element of [results.matches]. *)
Record scored_match := mk_match { m_metadata : metadata; m_score : Q }.

(** The arguments of one [index.query] call, with the index addressed. *)
Record query_request := mk_query {
  q_index : string;
  q_vector : vector;
  q_top_k : Z;
  q_include_metadata : bool
}.

(** One dict of the list returned by [search_videos]. *)
Record search_result := mk_result {
  video_id : string;
  text : string;
  start_time : Q;
  end_time : Q;
  start_formatted : string;
  end_formatted : string;
  score : Q
}.

(** Everything outside the process: what was printed, the requests sent
    to each collaborator in the order they were sent, and the contents of
    the vector store, keyed by index name and vector id. *)
Record world := mk_world {
  console : list string;
  transcript_calls : list string;
  embed_calls : list embed_request;
  index_calls : list (string * string);
  upsert_calls : list (string * item);
  query_calls : list query_request;
  store : gmap (string * string) (vector * metadata)
}.

(** How the collaborators answer.  [pinecone_index w key name] is
    [Pinecone(api_key=key).Index(name)] and [upsert_rejects] is
    [index.upsert]: [None] means the call went through.  An answer may
    depend on the request and on the world at the moment of the call,
    that is on what the store holds and on everything asked before: a
    rate limit, an outage and a store that answers from its contents are
    all services of this kind. *)
Record services := mk_services {
  get_transcript_api : world -> string -> result (list entry);
  embed_content : world -> embed_request -> result vector;
  pinecone_index : world -> string -> string -> option exn;
  upsert_rejects : world -> string -> item -> option exn;
  pinecone_query : world -> query_request -> result (list scored_match)
}.

(** What each call leaves behind in the world. *)
Definition printed (line : string) (w : world) : world :=
  mk_world (console w ++ [line]) (transcript_calls w) (embed_calls w) (index_calls w)
           (upsert_calls w) (query_calls w) (store w).

Definition transcript_asked (video : string) (w : world) : world :=
  mk_world (console w) (transcript_calls w ++ [video]) (embed_calls w) (index_calls w)
           (upsert_calls w) (query_calls w) (store w).

Definition embedding_asked (req : embed_request) (w : world) : world :=
  mk_world (console w) (transcript_calls w) (embed_calls w ++ [req]) (index_calls w)
           (upsert_calls w) (query_calls w) (store w).

Definition index_asked (key name : string) (w : world) : world :=
  mk_world (console w) (transcript_calls w) (embed_calls w) (index_calls w ++ [(key, name)])
           (upsert_calls w) (query_calls w) (store w).

(** A rejected upsert leaves the store as it was. *)
Definition upsert_asked (name : string) (it : item) (w : world) : world :=
  mk_world (console w) (transcript_calls w) (embed_calls w) (index_calls w)
           (upsert_calls w ++ [(name, it)]) (query_calls w) (store w).

(** An accepted upsert writes the vector under its id, over whatever was
    there. *)
Definition upsert_stored (name : string) (it : item) (w : world) : world :=
  mk_world (console w) (transcript_calls w) (embed_calls w) (index_calls w)
           (upsert_calls w ++ [(name, it)]) (query_calls w)
           (<[(name, id it) := (values it, item_metadata it)]> (store w)).

Definition query_asked (q : query_request) (w : world) : world :=
  mk_world (console w) (transcript_calls w) (embed_calls w) (index_calls w)
           (upsert_calls w) (query_calls w ++ [q]) (store w).

(** ** Computations that act on the world and may raise *)

Definition M (A : Type) : Type := world -> result A * world.

Definition ret {A} (a : A) : M A := fun w => (Ok a, w).

Definition raise {A} (e : exn) : M A := fun w => (Raise e, w).

Definition bind {A B} (m : M A) (k : A -> M B) : M B :=
  fun w => match m w with
           | (Ok a, w') => k a w'
           | (Raise e, w') => (Raise e, w')
           end.

Definition lift {A} (r : result A) : M A := fun w => (r, w).

(** [try: body except Exception as e: handler e] *)
Definition try_except {A} (body : M A) (handler : exn -> M A) : M A :=
  fun w => match body w with
           | (Ok a, w') => (Ok a, w')
           | (Raise e, w') => handler e w'
           end.

Declare Scope world_scope.
Delimit Scope world_scope with world.
Notation "x <-- c ; k" := (bind c (fun x => k))
  (at level 100, c at next level, right associativity) : world_scope.
Notation "c >> k" := (bind c (fun _ => k))
  (at level 100, k at level 200, right associativity) : world_scope.
Open Scope world_scope.

Definition print (line : string) : M unit := fun w => (Ok tt, printed line w).

Definition call_get_transcript (svc : services) (video : string) : M (list entry) :=
  fun w => (get_transcript_api svc w video, transcript_asked video w).

Definition call_embed_content (svc : services) (req : embed_request) : M vector :=
  fun w => (embed_content svc w req, embedding_asked req w).

Definition call_pinecone_index (svc : services) (key name : string) : M unit :=
  fun w => (match pinecone_index svc w key name with Some e => Raise e | None => Ok tt end,
            index_asked key name w).

Definition call_upsert (svc : services) (name : string) (it : item) : M unit :=
  fun w => match upsert_rejects svc w name it with
           | Some e => (Raise e, upsert_asked name it w)
           | None => (Ok tt, upsert_stored name it w)
           end.

Definition call_query (svc : services) (q : query_request) : M (list scored_match) :=
  fun w => (pinecone_query svc w q, query_asked q w).

(** ** Environment *)

(** [os.getenv(name)] and [os.getenv(name, default)] *)
Definition getenv (env : gmap string string) (name : string) : option string := env !! name.

Definition getenv_default (env : gmap string string) (name fallback : string) : string :=
  default fallback (env !! name).

(** Truth value of an optional string: [None] and [""] are false. *)
Definition truthy (s : option string) : option string :=
  match s with
  | Some v => if decide (v = "") then None else Some v
  | None => None
  end.

(** [index_name or os.getenv("PINECONE_INDEX_NAME", "video-search")] *)
Definition resolve_index_name (env : gmap string string) (index_name : option string) : string :=
  match truthy index_name with
  | Some name => name
  | None => getenv_default env "PINECONE_INDEX_NAME" "video-search"
  end.

(** ** [get_embedding] *)

Definition get_embedding (svc : services) (text : string) : M vector :=
  try_except
    (call_embed_content svc (mk_embed_request "models/embedding-001" text "retrieval_document"))
    (fun e => print ("[red]Error getting embedding: " +:+ exn_msg e +:+ "[/red]") >> raise e).

(** ** [index_video_transcript] *)

Definition chunk_id (video : string) (i : nat) : string :=
  video +:+ "_chunk_" +:+ pretty i.

Definition chunk_metadata (video : string) (c : chunk) : metadata :=
  mk_metadata video (c_text c) (c_start_time c) (c_end_time c)
              (c_start_formatted c) (c_end_formatted c).

(** [for i, chunk in enumerate(chunks)], entered at ordinal [i]. *)
Fixpoint upsert_chunks (svc : services) (index_name video : string) (i : nat)
    (chunks : list chunk) : M unit :=
  match chunks with
  | [] => ret tt
  | c :: rest =>
      embedding <-- get_embedding svc (c_text c);
      call_upsert svc index_name (mk_item (chunk_id video i) embedding (chunk_metadata video c)) >>
      upsert_chunks svc index_name video (S i) rest
  end.

(** [create_chunks(transcript)] on whatever [json.loads] gave back:
    [len(None)] raises. *)
Definition create_chunks_of (transcript : option (list entry)) : result (list chunk) :=
  match transcript with
  | Some captions => create_chunks captions default_chunk_size
  | None => Raise (Exn "TypeError" "object of type 'NoneType' has no len()")
  end.

Definition missing_key : exn :=
  Exn "ValueError" "PINECONE_API_KEY not found in environment variables".

Definition index_video_transcript (svc : services) (env : gmap string string)
    (video : string) (transcript_data : json_text) (index_name : option string) : M unit :=
  let index_name := resolve_index_name env index_name in
  match truthy (getenv env "PINECONE_API_KEY") with
  | None => raise missing_key
  | Some key =>
      try_except
        (call_pinecone_index svc key index_name >>
         transcript <-- lift (json_loads transcript_data);
         chunks <-- lift (create_chunks_of transcript);
         upsert_chunks svc index_name video 0 chunks >>
         print "[bold green]✓[/bold green] Video transcript indexed successfully")
        (fun e =>
           print ("[red]Error indexing video transcript: " +:+ exn_msg e +:+ "[/red]") >>
           raise e)
  end.

(** ** [search_videos] *)

Definition result_of_match (m : scored_match) : search_result :=
  mk_result (md_video_id (m_metadata m)) (md_text (m_metadata m))
            (md_start_time (m_metadata m)) (md_end_time (m_metadata m))
            (md_start_formatted (m_metadata m)) (md_end_formatted (m_metadata m))
            (m_score m).

Definition search_videos (svc : services) (env : gmap string string)
    (query : string) (top_k : Z) (index_name : option string) : M (list search_result) :=
  let index_name := resolve_index_name env index_name in
  match truthy (getenv env "PINECONE_API_KEY") with
  | None => raise missing_key
  | Some key =>
      try_except
        (call_pinecone_index svc key index_name >>
         query_embedding <-- get_embedding svc query;
         results <-- call_query svc (mk_query index_name query_embedding top_k true);
         let matches := map result_of_match results in
         print "[bold green]✓[/bold green] Search completed successfully" >>
         ret matches)
        (fun e =>
           print ("[red]Error searching videos: " +:+ exn_msg e +:+ "[/red]") >>
           raise e)
  end.

(** ** [transcript.py] *)

Definition get_transcript (svc : services) (video : string) : M (option (list entry)) :=
  try_except
    (transcript <-- call_get_transcript svc video; ret (Some transcript))
    (fun e => print ("An error occurred: " +:+ exn_msg e) >> ret None).

Definition get_json_transcript (svc : services) (video : string) : M json_text :=
  transcript_data <-- get_transcript svc video;
  ret (json_dumps transcript_data).

(** ** [format_transcript] *)







(** ** Python string built-ins used on URLs *)

(** [sub in s] *)
Fixpoint contains (sub s : string) : bool :=
  String.prefix sub s ||
  match s with
  | "" => false
  | String _ s' => contains sub s'
  end.

Fixpoint string_drop (n : nat) (s : string) : string :=
  match n, s with
  | O, _ => s
  | S n', String _ s' => string_drop n' s'
  | S _, "" => ""
  end.

(** The text before the leftmost occurrence of [sep] in [s], and the
    text after it. *)
Fixpoint find_sep (sep s : string) : option (string * string) :=
  if String.prefix sep s then Some ("", string_drop (String.length sep) s)
  else match s with
       | "" => None
       | String c s' =>
           match find_sep sep s' with
           | Some (before, after) => Some (String c before, after)
           | None => None
           end
       end.

(** Cutting at every occurrence from the left; each cut shortens the
    text, so its length bounds the number of cuts. *)
Fixpoint split_at (fuel : nat) (sep s : string) : list string :=
  match find_sep sep s, fuel with
  | Some (before, after), S fuel' => before :: split_at fuel' sep after
  | _, _ => [s]
  end.

(** [s.split(sep)] *)
Definition py_split (sep s : string) : result (list string) :=
  if decide (sep = "") then Raise (Exn "ValueError" "empty separator")
  else Ok (split_at (String.length s) sep s).

(** [l[i]] for [i >= 0] *)
Definition py_index {A} (l : list A) (i : nat) : result A :=
  match l !! i with
  | Some x => Ok x
  | None => Raise (Exn "IndexError" "list index out of range")
  end.

(** ** [index.py] *)

(** The extraction of the video id, written out in both
    [validate_youtube_url] and [process_video]. *)
Definition extract_video_id (url : string) : result string :=
  if contains "youtube.com/watch?v=" url then
    parts <-! py_split "watch?v=" url;
    tail <-! py_index parts 1;
    parts <-! py_split "&" tail;
    py_index parts 0
  else
    parts <-! py_split "youtu.be/" url;
    tail <-! py_index parts 1;
    parts <-! py_split "?" tail;
    py_index parts 0.

(** The bare [except] turns every exception into [False]. *)
Definition validate_youtube_url (url : string) : bool :=
  if negb (contains "youtube.com/watch?v=" url) && negb (contains "youtu.be/" url)
  then false
  else match extract_video_id url with
       | Ok video_id => (0 <? String.length video_id)%nat
       | Raise _ => false
       end.

(** [not transcript] on the text [get_json_transcript] returned.  The
    texts [null] and [[...]] are not empty.  Of a text that is not JSON
    the model keeps no characters; the test is answered as if it were
    empty, the reading under which the guard below fires most often. *)
Definition text_is_empty (t : json_text) : bool :=
  match t with
  | json_invalid _ => true
  | json_null | json_array _ => false
  end.

Definition process_video (svc : services) (env : gmap string string) (url : string)
    (index_name : option string) : M string :=
  try_except
    (let index_name := resolve_index_name env index_name in
     video_id <-- lift (extract_video_id url);
     transcript <-- get_json_transcript svc video_id;
     (if text_is_empty transcript
      then raise (Exn "ValueError" ("Could not get transcript for video " +:+ video_id))
      else ret tt) >>
     index_video_transcript svc env video_id transcript (Some index_name) >>
     print "[bold green]âœ“[/bold green] Video processed successfully" >>
     ret video_id)
    (fun e => print ("[red]Error processing video: " +:+ exn_msg e +:+ "[/red]") >> raise e).


Definition check_environment (env : gmap string string) : M bool :=
  match truthy (getenv env "GEMINI_API_KEY") with
  | None =>
      print "[red]Error: GEMINI_API_KEY not found in environment variables[/red]" >>
      print "Please make sure you have set up your .env file with your Google API key" >>
      ret false
  | Some _ =>
      match truthy (getenv env "PINECONE_API_KEY") with
      | None =>
          print "[red]Error: PINECONE_API_KEY not found in environment variables[/red]" >>
          print "Please make sure you have set up your .env file with your Pinecone API key" >>
          ret false
      | Some _ => ret true
      end
  end.

(** ** Sample inputs *)

Definition ex_entries : list entry :=
  [ mk_entry "Hello world" 0 2; mk_entry "this is" 2 (3 # 2); mk_entry "a test" (7 # 2) 2 ].

Definition empty_world : world := mk_world [] [] [] [] [] [] ∅.

Definition ex_env : gmap string string := {[ "PINECONE_API_KEY" := "pk" ]}.

Definition ex_matches : list scored_match :=
  [ mk_match (mk_metadata "v" "Hello world this is a test" 0 (11 # 2) "0:00:00" "0:00:05") (9 # 10);
    mk_match (mk_metadata "w" "other" 7 9 "0:00:07" "0:00:09") (1 # 2) ].

(** A service double that answers by the request alone: captions exist
    for video ["v"] only, the embedding of a text is its length, every
    upsert is accepted, and every query is answered with the first
    [top_k] of the two matches above. *)
Definition ex_services : services :=
  mk_services
    (fun _ video => if decide (video = "v") then Ok ex_entries
                    else Raise (Exn "TranscriptsDisabled" "Subtitles are disabled for this video"))
    (fun _ req => Ok [inject_Z (Z.of_nat (String.length (content req)))])
    (fun _ _ _ => None)
    (fun _ _ _ => None)
    (fun _ q => Ok (take (Z.to_nat (q_top_k q)) ex_matches)).




Definition ex_chunk0 : chunk :=
  mk_chunk "Hello world this is a test" 0 (11 # 2) "0:00:00" "0:00:05".


(** The two chunks of [ex_entries] for chunk size 2. *)
Definition ex_halves : list chunk :=
  [ mk_chunk "Hello world this is" 0 (7 # 2) "0:00:00" "0:00:03";
    mk_chunk "a test" (7 # 2) (11 # 2) "0:00:03" "0:00:05" ].

(** A world whose store still holds a second chunk of video ["v"] from
    an earlier, longer transcript. *)
Definition ex_stale_world : world :=
  mk_world [] [] [] [] [] []
           {[ ("video-search", "v_chunk_1")
              := ([3%Q], mk_metadata "v" "old words" 9 12 "0:00:09" "0:00:12") ]}.

(** An environment with both keys set. *)
Definition ex_full_env : gmap string string :=
  {[ "GEMINI_API_KEY" := "gk"; "PINECONE_API_KEY" := "pk" ]}.

(** ** Vocabulary of the properties *)

(** [ceil(n / k)] for a positive [k]. *)
Definition ceil_div (n k : Z) : Z := (n + k - 1) / k.

(** A time that [timedelta] can hold once truncated to whole seconds. *)
Definition fits (t : Q) : bool := Z.abs (py_int t / 86400) <=? MAX_DELTA_DAYS.

Definition entry_fits (e : entry) : bool :=
  fits (e_start e) && fits (e_start e + e_duration e)%Q.

(** Chronological order of two captions. *)
Definition starts_before (a b : entry) : Prop := (e_start a <= e_start b)%Q.

(** The [j]-th group of [k] consecutive captions. *)
Definition group_of (l : list entry) (k : Z) (j : nat) : list entry :=
  take (Z.to_nat k) (drop (j * Z.to_nat k) l).

(** Hours, minutes and seconds of a count of seconds, written
    ["H:MM:SS"]: the hours unpadded, minutes and seconds on two digits. *)
Definition two_digits (n : Z) : string :=
  if n <? 10 then "0" +:+ pretty n else pretty n.

Definition hms (n : Z) : string :=
  pretty (n / 3600) +:+ ":" +:+ two_digits (n mod 3600 / 60) +:+ ":" +:+ two_digits (n mod 60).

(** What [str(timedelta)] puts in front for [d] whole days. *)
Definition day_prefix (d : Z) : string :=
  if d =? 0 then ""
  else if Z.abs d =? 1 then pretty d +:+ " day, "
  else pretty d +:+ " days, ".

(** The request [get_embedding] sends for a text. *)
Definition document_request (t : string) : embed_request :=
  mk_embed_request "models/embedding-001" t "retrieval_document".

(** The embedding intents of the design and the task type that asks the
    service for each. *)
Inductive intent := DOCUMENT | QUERY.

Definition task_type_of (i : intent) : string :=
  match i with
  | DOCUMENT => "retrieval_document"
  | QUERY => "retrieval_query"
  end.

(** The vector [index_video_transcript] upserts for chunk [c] at ordinal
    [i] once its text has embedded to [v]. *)
Definition chunk_item (video : string) (i : nat) (c : chunk) (v : vector) : item :=
  mk_item (chunk_id video i) v (chunk_metadata video c).

(** The vectors for a run of chunks entered at ordinal [i]. *)
Fixpoint chunk_items (video : string) (i : nat) (chunks : list chunk) (vs : list vector)
    : list item :=
  match chunks, vs with
  | c :: chunks', v :: vs' => chunk_item video i c v :: chunk_items video (S i) chunks' vs'
  | _, _ => []
  end.

(** The store after an accepted upsert of [it] into index [name]. *)
Definition store_put (name : string) (st : gmap (string * string) (vector * metadata))
    (it : item) : gmap (string * string) (vector * metadata) :=
  <[(name, id it) := (values it, item_metadata it)]> st.

(** In world [w], chunk [c] at ordinal [i] goes through: its text embeds
    to [v] and the store then accepts the vector. *)
Definition chunk_succeeds (svc : services) (name video : string) (i : nat)
    (c : chunk) (v : vector) (w : world) : Prop :=
  embed_content svc w (document_request (c_text c)) = Ok v /\
  upsert_rejects svc (embedding_asked (document_request (c_text c)) w) name
                 (chunk_item video i c v) = None.

(** The world a chunk that went through leaves behind. *)
Definition after_chunk (name video : string) (i : nat) (c : chunk) (v : vector)
    (w : world) : world :=
  upsert_stored name (chunk_item video i c v)
                (embedding_asked (document_request (c_text c)) w).


(** Starting in world [w], the chunks entered at ordinal [i] all go
    through one after the other, with embeddings [vs]. *)
Fixpoint chunks_succeed (svc : services) (name video : string) (i : nat)
    (chunks : list chunk) (vs : list vector) (w : world) : Prop :=
  match chunks, vs with
  | [], [] => True
  | c :: chunks', v :: vs' =>
      chunk_succeeds svc name video i c v w /\
      chunks_succeed svc name video (S i) chunks' vs' (after_chunk name video i c v w)
  | _, _ => False
  end.

(** The world after the loop went through [chunks]: one embedding
    request and one upsert per chunk, in order; nothing printed. *)
Definition after_upserts (name : string) (chunks : list chunk) (items : list item)
    (w : world) : world :=
  mk_world (console w) (transcript_calls w)
           (embed_calls w ++ map (fun c => document_request (c_text c)) chunks)
           (index_calls w)
           (upsert_calls w ++ map (pair name) items)
           (query_calls w)
           (foldl (store_put name) (store w) items).

(** Services whose embedding, index handle and upsert answers depend on
    the request alone. *)
Definition answers_by_request (svc : services) : Prop :=
  forall w w',
    (forall req, embed_content svc w req = embed_content svc w' req) /\
    (forall key name, pinecone_index svc w key name = pinecone_index svc w' key name) /\
    (forall name it, upsert_rejects svc w name it = upsert_rejects svc w' name it).

(** Every embedding request a computation sends satisfies [P]. *)
Definition embeds_only {A} (P : embed_request -> Prop) (m : M A) : Prop :=
  forall w, exists reqs,
    embed_calls (snd (m w)) = embed_calls w ++ reqs /\ Forall P reqs.

(** The store returns no more matches than the query asked for. *)
Definition honours_top_k (svc : services) : Prop :=
  forall w q ms, pinecone_query svc w q = Ok ms -> (length ms <= Z.to_nat (q_top_k q))%nat.

(** A result carries the fields of a match. *)
Definition carries (m : scored_match) (r : search_result) : Prop :=
  video_id r = md_video_id (m_metadata m) /\
  text r = md_text (m_metadata m) /\
  start_time r = md_start_time (m_metadata m) /\
  end_time r = md_end_time (m_metadata m) /\
  start_formatted r = md_start_formatted (m_metadata m) /\
  end_formatted r = md_end_formatted (m_metadata m) /\
  score r = m_score m.


(** A computation leaves a component of the world as it found it. *)
Definition preserves {A X} (f : world -> X) (m : M A) : Prop :=
  forall w, f (snd (m w)) = f w.

(** The characters of a text. *)
Definition chars (s : string) : list Ascii.ascii := String.list_ascii_of_string s.

(** A video id as they occur in URLs: no ['&'], ['?'] or ['/'] in it. *)
Definition plain_id (s : string) : Prop :=
  ~ In "&"%char (chars s) /\ ~ In "?"%char (chars s) /\ ~ In "/"%char (chars s).

(** Every step of a computation relates the world before it to the
    world after it. *)
Definition keeps {A} (R : world -> world -> Prop) (m : M A) : Prop :=
  forall w, R w (snd (m w)).

(** Nothing that was stored has been removed. *)
Definition nothing_removed (w w' : world) : Prop :=
  forall key, is_Some (store w !! key) -> is_Some (store w' !! key).

(** The text before the leftmost occurrence of [sep] in [s], all of [s]
    when there is none: the first part of [s.split(sep)]. *)
Definition first_part (sep s : string) : string :=
  match find_sep sep s with
  | Some (before, _) => before
  | None => s
  end.

(** The characters of [p] before its first [c]. *)
Fixpoint until_char (c : Ascii.ascii) (p : string) : string :=
  match p with
  | "" => ""
  | String a p' => if Ascii.ascii_dec a c then "" else String a (until_char c p')
  end.

(** No occurrence of [sep] in [t +:+ s] starts inside [t]. *)
Fixpoint no_start (sep t s : string) : Prop :=
  match t with
  | "" => True
  | String c t' => String.prefix sep (String c (t' +:+ s)) = false /\ no_start sep t' s
  end.

(** * Properties *)

(** ** Strings and lists *)

Lemma append_assoc (a b c : string) : (a +:+ b) +:+ c = a +:+ (b +:+ c).
Proof.
  induction a as [|x a IH]; [reflexivity|].
  change (String x ((a +:+ b) +:+ c) = String x (a +:+ (b +:+ c))).
  now rewrite IH.
Qed.

Lemma concat_cons (sep x : string) (xs : list string) :
  xs <> [] -> String.concat sep (x :: xs) = x +:+ sep +:+ String.concat sep xs.
Proof. destruct xs; [congruence | reflexivity]. Qed.

(** Joining two non-empty runs separately and gluing them with the
    separator is joining them at once. *)
Lemma concat_app (sep : string) (xs ys : list string) :
  xs <> [] -> ys <> [] ->
  String.concat sep (xs ++ ys) = String.concat sep xs +:+ sep +:+ String.concat sep ys.
Proof.
  intros Hxs Hys. induction xs as [|x xs IH]; [congruence|].
  destruct xs as [|x' xs].
  - simpl app. rewrite concat_cons by assumption. reflexivity.
  - change ((x :: x' :: xs) ++ ys)%list with (x :: ((x' :: xs) ++ ys))%list.
    rewrite concat_cons by (simpl; congruence).
    rewrite IH by congruence.
    rewrite (concat_cons sep x (x' :: xs)) by congruence.
    now rewrite !append_assoc.
Qed.

Lemma py_slice_take_drop {A} (l : list A) (i k : Z) :
  0 <= i -> 0 <= k ->
  py_slice l i (i + k) = take (Z.to_nat k) (drop (Z.to_nat i) l).
Proof.
  intros Hi Hk. unfold py_slice, py_slice_bound.
  destruct (Z.ltb_spec i 0); [lia|].
  destruct (Z.ltb_spec (i + k) 0); [lia|].
  remember (Z.of_nat (length l)) as n eqn:Hn.
  destruct (Z.le_gt_cases i n) as [Hin|Hin].
  - rewrite (Z.min_l i n) by lia.
    destruct (Z.le_gt_cases (i + k) n) as [Hkn|Hkn].
    + rewrite Z.min_l by lia. f_equal. lia.
    + rewrite Z.min_r by lia.
      rewrite (take_ge (drop (Z.to_nat i) l) (Z.to_nat k))
        by (rewrite length_drop; lia).
      apply take_ge. rewrite length_drop. lia.
  - rewrite !Z.min_r by lia. rewrite Z.sub_diag.
    rewrite (drop_ge l (Z.to_nat n)) by lia.
    rewrite (drop_ge l (Z.to_nat i)) by lia.
    now rewrite !take_nil.
Qed.

(** ** [range] with a positive step *)

Lemma range_up_lookup (k stop : Z) (fuel : nat) : forall (i : Z) (j : nat) (x : Z),
  range_up fuel i stop k !! j = Some x -> x = i + Z.of_nat j * k /\ x < stop.
Proof.
  induction fuel as [|fuel IH]; intros i j x; simpl; [discriminate|].
  destruct (Z.ltb_spec i stop); [|discriminate].
  destruct j as [|j]; simpl.
  - intros [= <-]. lia.
  - intros Hx. apply IH in Hx. lia.
Qed.

Lemma ceil_div_step (m k : Z) : 0 < k -> ceil_div m k = 1 + ceil_div (m - k) k.
Proof.
  intros Hk. unfold ceil_div.
  replace (m + k - 1) with ((m - k + k - 1) + 1 * k) by lia.
  rewrite Z.div_add by lia. lia.
Qed.

Lemma ceil_div_0 (k : Z) : 0 < k -> ceil_div 0 k = 0.
Proof. intros Hk. unfold ceil_div. apply Z.div_small. lia. Qed.

Lemma ceil_div_pos (m k : Z) : 0 < k -> 0 < m -> 0 < ceil_div m k.
Proof.
  intros Hk Hm. unfold ceil_div.
  apply Z.div_str_pos. lia.
Qed.

(** [ceil_div] is the ceiling: the least count of groups of [k] that
    cover [n]. *)
Lemma ceil_div_spec (n k : Z) :
  0 < k -> (ceil_div n k - 1) * k < n <= ceil_div n k * k.
Proof.
  intros Hk. unfold ceil_div.
  pose proof (Z.div_mod (n + k - 1) k ltac:(lia)) as Hdm.
  pose proof (Z.mod_pos_bound (n + k - 1) k Hk) as Hb.
  nia.
Qed.

Lemma range_up_length (k stop : Z) (fuel : nat) : forall i : Z,
  0 < k -> (Z.to_nat (stop - i) <= fuel)%nat ->
  Z.of_nat (length (range_up fuel i stop k)) = ceil_div (Z.max 0 (stop - i)) k.
Proof.
  induction fuel as [|fuel IH]; intros i Hk Hfuel; simpl.
  - rewrite Z.max_l by lia. now rewrite ceil_div_0.
  - destruct (Z.ltb_spec i stop).
    + simpl length. rewrite Nat2Z.inj_succ, IH by lia.
      rewrite (Z.max_r 0 (stop - i)) by lia.
      rewrite (ceil_div_step (stop - i) k) by lia.
      destruct (Z.le_gt_cases (stop - (i + k)) 0).
      * rewrite Z.max_l by lia. rewrite ceil_div_0 by lia.
        unfold ceil_div. rewrite Z.div_small; lia.
      * rewrite Z.max_r by lia.
        replace (stop - (i + k)) with (stop - i - k) by lia. lia.
    + simpl. rewrite Z.max_l by lia. now rewrite ceil_div_0.
Qed.

(** ** One chunk *)

Lemma format_seconds_fits (t : Q) :
  fits t = true ->
  format_seconds t
  = Ok (timedelta_str (mk_timedelta (py_int t / 86400) (py_int t mod 86400) 0)).
Proof.
  unfold fits, format_seconds, timedelta_of_seconds. intros Hfit.
  apply Z.leb_le in Hfit.
  destruct (Z.ltb_spec MAX_DELTA_DAYS (Z.abs (py_int t / 86400))); [lia|].
  reflexivity.
Qed.

Lemma format_seconds_inv (t : Q) (s : string) :
  format_seconds t = Ok s ->
  s = timedelta_str (mk_timedelta (py_int t / 86400) (py_int t mod 86400) 0).
Proof.
  unfold format_seconds, timedelta_of_seconds.
  destruct (MAX_DELTA_DAYS <? Z.abs (py_int t / 86400)); simpl; congruence.
Qed.

Lemma make_chunk_inv (g : list entry) (c : chunk) :
  make_chunk g = Ok c ->
  exists first final,
    head g = Some first /\ last g = Some final /\
    c_text c = String.concat " " (map e_text g) /\
    c_start_time c = e_start first /\
    c_end_time c = (e_start final + e_duration final)%Q /\
    format_seconds (c_start_time c) = Ok (c_start_formatted c) /\
    format_seconds (c_end_time c) = Ok (c_end_formatted c).
Proof.
  unfold make_chunk.
  destruct (head g) as [first|]; [|discriminate].
  destruct (last g) as [final|]; [|discriminate].
  destruct (format_seconds (e_start first)) as [sf|] eqn:Hsf; [|discriminate].
  destruct (format_seconds (e_start final + e_duration final)) as [ef|] eqn:Hef;
    [|discriminate].
  simpl. intros [= <-]. exists first, final. simpl. repeat split; assumption.
Qed.

Lemma make_chunk_fits (g : list entry) :
  g <> [] -> Forall (fun e => entry_fits e = true) g ->
  exists c, make_chunk g = Ok c /\ c_text c = String.concat " " (map e_text g).
Proof.
  intros Hne Hfit. unfold make_chunk.
  destruct (head g) as [first|] eqn:Hhead; [|destruct g; [congruence|discriminate]].
  destruct (last g) as [final|] eqn:Hlast; [|apply last_None in Hlast; congruence].
  assert (Hf : entry_fits first = true).
  { eapply Forall_forall in Hfit; [exact Hfit|]. destruct g; [discriminate|].
    injection Hhead as ->. apply list_elem_of_here. }
  assert (Hl : entry_fits final = true).
  { eapply Forall_forall in Hfit; [exact Hfit|]. now apply last_Some_elem_of. }
  unfold entry_fits in Hf, Hl.
  apply andb_true_iff in Hf as [Hf _]. apply andb_true_iff in Hl as [_ Hl].
  rewrite (format_seconds_fits _ Hf), (format_seconds_fits _ Hl). simpl.
  eexists. split; reflexivity.
Qed.

(** ** The chunking loop *)

Lemma create_chunks_loop_inv (l : list entry) (k : Z) (indices : list Z) :
  forall acc res,
    create_chunks_loop l k indices acc = Ok res ->
    exists cs, res = (acc ++ cs)%list /\
               Forall2 (fun i c => make_chunk (py_slice l i (i + k)) = Ok c) indices cs.
Proof.
  induction indices as [|i rest IH]; intros acc res; simpl.
  - intros [= <-]. exists []. split; [now rewrite app_nil_r | constructor].
  - destruct (make_chunk (py_slice l i (i + k))) as [c|] eqn:Hc; [|discriminate].
    simpl. intros Hrest. apply IH in Hrest as (cs & -> & Hall).
    exists (c :: cs). split; [now rewrite <- app_assoc | now constructor].
Qed.

(** With a positive step and times that fit, the loop from offset [i]
    returns: it adds [ceil((N - i) / k)] chunks whose texts join to the
    joined texts of the captions from [i] on. *)
Lemma create_chunks_from (l : list entry) (k : Z) :
  0 < k -> Forall (fun e => entry_fits e = true) l ->
  forall (fuel : nat) (i : Z) (acc : list chunk),
    0 <= i -> (Z.to_nat (Z.of_nat (length l) - i) <= fuel)%nat ->
    exists cs,
      create_chunks_loop l k (range_up fuel i (Z.of_nat (length l)) k) acc
      = Ok (acc ++ cs)%list /\
      Z.of_nat (length cs) = ceil_div (Z.max 0 (Z.of_nat (length l) - i)) k /\
      String.concat " " (map c_text cs)
      = String.concat " " (map e_text (drop (Z.to_nat i) l)).
Proof.
  intros Hk Hfit. induction fuel as [|fuel IH]; intros i acc Hi Hfuel.
  - exists []. simpl. rewrite app_nil_r, Z.max_l, ceil_div_0 by lia.
    rewrite drop_ge by lia. auto.
  - simpl. destruct (Z.ltb_spec i (Z.of_nat (length l))) as [Hlt|Hge].
    + simpl. rewrite py_slice_take_drop by lia.
      set (g := take (Z.to_nat k) (drop (Z.to_nat i) l)).
      assert (Hg : g <> []).
      { intros Hnil. apply (f_equal length) in Hnil. unfold g in Hnil.
        rewrite length_take, length_drop in Hnil. simpl in Hnil. lia. }
      assert (Hgfit : Forall (fun e => entry_fits e = true) g).
      { unfold g. apply Forall_take, Forall_drop, Hfit. }
      destruct (make_chunk_fits g Hg Hgfit) as (c & Hc & Htext).
      rewrite Hc. simpl.
      destruct (IH (i + k) (acc ++ [c])%list) as (cs & Hrun & Hlen & Hjoin); [lia|lia|].
      exists (c :: cs). rewrite Hrun, <- app_assoc. split; [reflexivity|].
      split.
      * simpl length. rewrite Nat2Z.inj_succ, Hlen.
        rewrite (Z.max_r 0 (Z.of_nat (length l) - i)) by lia.
        rewrite (ceil_div_step (Z.of_nat (length l) - i) k) by lia.
        destruct (Z.le_gt_cases (Z.of_nat (length l) - (i + k)) 0).
        -- rewrite Z.max_l, ceil_div_0 by lia.
           unfold ceil_div. rewrite Z.div_small; lia.
        -- rewrite Z.max_r by lia.
           replace (Z.of_nat (length l) - (i + k))
             with (Z.of_nat (length l) - i - k) by lia. lia.
      * rewrite <- (take_drop (Z.to_nat k) (drop (Z.to_nat i) l)).
        fold g. rewrite drop_drop.
        replace (Z.to_nat i + Z.to_nat k)%nat with (Z.to_nat (i + k)) by lia.
        destruct (Z.le_gt_cases (Z.of_nat (length l)) (i + k)) as [Hend|Hmore].
        -- rewrite (drop_ge l (Z.to_nat (i + k))) by lia.
           rewrite Z.max_l, ceil_div_0 in Hlen by lia.
           destruct cs; [|simpl in Hlen; lia].
           rewrite app_nil_r. simpl. exact Htext.
        -- assert (Hcs : cs <> []).
           { intros ->. simpl in Hlen.
             pose proof (ceil_div_pos (Z.of_nat (length l) - (i + k)) k Hk) as Hp.
             rewrite Z.max_r in Hlen by lia. lia. }
           assert (Hrest : drop (Z.to_nat (i + k)) l <> []).
           { intros Hnil. apply (f_equal length) in Hnil.
             rewrite length_drop in Hnil. simpl in Hnil. lia. }
           rewrite map_app, concat_app
             by (intros Hnil; apply map_eq_nil in Hnil; congruence).
           change (map c_text (c :: cs)) with (c_text c :: map c_text cs).
           rewrite concat_cons
             by (intros Hnil; apply map_eq_nil in Hnil; congruence).
           now rewrite Htext, Hjoin.
    + exists []. simpl. rewrite app_nil_r, Z.max_l, ceil_div_0 by lia.
      rewrite drop_ge by lia. auto.
Qed.

(** Chunk [j] of a successful call is [make_chunk] of the [j]-th group,
    and the chunk size was positive. *)
Lemma create_chunks_lookup (l : list entry) (k : Z) (chunks : list chunk)
    (j : nat) (c : chunk) :
  create_chunks l k = Ok chunks -> chunks !! j = Some c ->
  0 < k /\ make_chunk (group_of l k j) = Ok c.
Proof.
  unfold create_chunks, py_range. intros Hrun Hj.
  destruct (Z.eqb_spec k 0); [discriminate|].
  destruct (Z.ltb_spec 0 k) as [Hk|Hk]; simpl in Hrun.
  - apply create_chunks_loop_inv in Hrun as (cs & -> & Hall). simpl in Hj.
    destruct (Forall2_lookup_r _ _ _ _ _ Hall Hj) as (i & Hi & Hc).
    apply range_up_lookup in Hi as [-> _].
    rewrite py_slice_take_drop in Hc by lia.
    split; [assumption|]. unfold group_of.
    replace (j * Z.to_nat k)%nat with (Z.to_nat (0 + Z.of_nat j * k)) by lia.
    exact Hc.
  - replace (Z.to_nat (0 - Z.of_nat (length l))) with 0%nat in Hrun by lia.
    simpl in Hrun. injection Hrun as <-. discriminate.
Qed.

Lemma create_chunks_elem (l : list entry) (k : Z) (chunks : list chunk) (c : chunk) :
  create_chunks l k = Ok chunks -> c ∈ chunks -> exists g, make_chunk g = Ok c.
Proof.
  intros Hrun Hin. apply list_elem_of_lookup in Hin as [j Hj].
  destruct (create_chunks_lookup _ _ _ _ _ Hrun Hj) as [_ Hc]. eauto.
Qed.

(** ** Order of the captions inside a group *)

Lemma starts_before_trans : Transitive starts_before.
Proof. intros a b c. unfold starts_before. apply Qle_trans. Qed.

Lemma sorted_head_last (g : list entry) (a b : entry) :
  StronglySorted starts_before g -> head g = Some a -> last g = Some b ->
  starts_before a b.
Proof.
  intros Hs Ha Hb. destruct g as [|x g]; [discriminate|].
  injection Ha as ->. apply StronglySorted_inv in Hs as [_ Hall].
  rewrite last_cons in Hb. destruct (last g) as [y|] eqn:Hy.
  - injection Hb as ->. eapply Forall_forall in Hall; [exact Hall|].
    now apply last_Some_elem_of.
  - injection Hb as ->. unfold starts_before. apply Qle_refl.
Qed.

Lemma sorted_group (l : list entry) (k : Z) (j : nat) :
  Sorted starts_before l -> StronglySorted starts_before (group_of l k j).
Proof.
  intros Hs. apply (@Sorted_StronglySorted _ starts_before starts_before_trans) in Hs.
  unfold group_of.
  rewrite <- (take_drop (j * Z.to_nat k) l) in Hs.
  apply StronglySorted_app_1_r in Hs.
  rewrite <- (take_drop (Z.to_nat k) (drop (j * Z.to_nat k) l)) in Hs.
  now apply StronglySorted_app_1_l in Hs.
Qed.

(** ** Rendering of a time *)

Lemma zero_pad_two_digits (n : Z) : 0 <= n < 60 -> zero_pad 2 n = two_digits n.
Proof.
  intros Hn.
  assert (Hall : forallb (fun m => String.eqb (zero_pad 2 m) (two_digits m))
                         (map Z.of_nat (seq 0 60)) = true) by (vm_compute; reflexivity).
  rewrite forallb_forall in Hall.
  apply String.eqb_eq, Hall, in_map_iff.
  exists (Z.to_nat n). split; [lia|]. apply in_seq. lia.
Qed.

Lemma minutes_of_hour (s : Z) : (s / 60) mod 60 = s mod 3600 / 60.
Proof.
  apply Z.div_unique with (r := s mod 60).
  - left. apply Z.mod_pos_bound. lia.
  - rewrite (Z.mod_eq s 3600), (Z.mod_eq (s / 60) 60), (Z.mod_eq s 60) by lia.
    replace (s / 3600) with (s / 60 / 60) by (rewrite Z.div_div by lia; reflexivity).
    lia.
Qed.

(** [str(timedelta(days=d, seconds=s))] is the day prefix followed by
    ["H:MM:SS"]. *)
Lemma timedelta_str_hms (d s : Z) :
  0 <= s < 86400 ->
  timedelta_str (mk_timedelta d s 0) = day_prefix d +:+ hms s.
Proof.
  intros Hs. unfold timedelta_str, hms, day_prefix. simpl.
  rewrite Z.div_div by lia. change (60 * 60) with 3600.
  rewrite minutes_of_hour.
  rewrite !zero_pad_two_digits.
  - destruct (d =? 0); [reflexivity|].
    destruct (Z.abs d =? 1); now rewrite append_assoc.
  - apply Z.mod_pos_bound. lia.
  - pose proof (Z.mod_pos_bound s 3600 ltac:(lia)).
    split; [apply Z.div_pos; lia | apply Z.div_lt_upper_bound; lia].
Qed.

Lemma format_seconds_hms (t : Q) (s : string) :
  format_seconds t = Ok s ->
  s = day_prefix (py_int t / 86400) +:+ hms (py_int t mod 86400).
Proof.
  intros Hs. apply format_seconds_inv in Hs as ->.
  apply timedelta_str_hms, Z.mod_pos_bound. lia.
Qed.

(** ** The upsert loop *)

Lemma get_embedding_ok (svc : services) (t : string) (v : vector) (w : world) :
  embed_content svc w (document_request t) = Ok v ->
  get_embedding svc t w = (Ok v, embedding_asked (document_request t) w).
Proof.
  intros Hv. unfold get_embedding, try_except, call_embed_content.
  fold (document_request t). now rewrite Hv.
Qed.

Lemma get_embedding_raise (svc : services) (t : string) (e : exn) (w : world) :
  embed_content svc w (document_request t) = Raise e ->
  get_embedding svc t w
  = (Raise e,
     printed ("[red]Error getting embedding: " +:+ exn_msg e +:+ "[/red]")
             (embedding_asked (document_request t) w)).
Proof.
  intros He. unfold get_embedding, try_except, call_embed_content.
  fold (document_request t). now rewrite He.
Qed.

Lemma after_upserts_nil (name : string) (w : world) : after_upserts name [] [] w = w.
Proof. unfold after_upserts. simpl. rewrite !app_nil_r. now destruct w. Qed.

Lemma after_upserts_step (name video : string) (i : nat) (c : chunk) (v : vector)
    (chunks : list chunk) (items : list item) (w : world) :
  after_upserts name chunks items (after_chunk name video i c v w)
  = after_upserts name (c :: chunks) (chunk_item video i c v :: items) w.
Proof.
  unfold after_upserts, after_chunk, upsert_stored, embedding_asked. simpl.
  now rewrite <- !app_assoc.
Qed.

(** One turn of the loop for a chunk that goes through. *)
Lemma upsert_chunks_cons (svc : services) (name video : string) (i : nat) (c : chunk)
    (v : vector) (rest : list chunk) (w : world) :
  chunk_succeeds svc name video i c v w ->
  upsert_chunks svc name video i (c :: rest) w
  = upsert_chunks svc name video (S i) rest (after_chunk name video i c v w).
Proof.
  intros [Hv Hup]. simpl. unfold bind at 1.
  rewrite (get_embedding_ok _ _ _ _ Hv). unfold bind at 1, call_upsert.
  fold (chunk_item video i c v). rewrite Hup. reflexivity.
Qed.

(** The loop over [done ++ more] with [done] going through is the loop
    over [more], entered where [done] left the world. *)
Lemma upsert_chunks_app (svc : services) (name video : string) (done more : list chunk) :
  forall (i : nat) (vs : list vector) (w : world),
    chunks_succeed svc name video i done vs w ->
    upsert_chunks svc name video i (done ++ more) w
    = upsert_chunks svc name video (i + length done) more
        (after_upserts name done (chunk_items video i done vs) w).
Proof.
  induction done as [|c done IH]; intros i [|v vs] w Hall; simpl in Hall; try tauto.
  - simpl app. simpl length. now rewrite Nat.add_0_r, after_upserts_nil.
  - destruct Hall as [Hc Hrest].
    change ((c :: done) ++ more) with (c :: (done ++ more)).
    rewrite (upsert_chunks_cons _ _ _ _ _ _ _ _ Hc), (IH _ _ _ Hrest).
    simpl chunk_items. rewrite after_upserts_step. f_equal. simpl. lia.
Qed.

(** When every chunk goes through, the loop returns and leaves exactly
    the planned requests and writes behind. *)
Lemma upsert_chunks_ok (svc : services) (name video : string) (chunks : list chunk)
    (i : nat) (vs : list vector) (w : world) :
  chunks_succeed svc name video i chunks vs w ->
  upsert_chunks svc name video i chunks w
  = (Ok tt, after_upserts name chunks (chunk_items video i chunks vs) w).
Proof.
  intros Hall. rewrite <- (app_nil_r chunks) at 1.
  now rewrite (upsert_chunks_app _ _ _ _ _ _ _ _ Hall).
Qed.

(** A loop that returned went through every chunk. *)
Lemma upsert_chunks_inv (svc : services) (name video : string) (chunks : list chunk) :
  forall (i : nat) (w w' : world),
    upsert_chunks svc name video i chunks w = (Ok tt, w') ->
    exists vs, chunks_succeed svc name video i chunks vs w.
Proof.
  induction chunks as [|c chunks IH]; intros i w w'.
  - intros _. now exists [].
  - destruct (embed_content svc w (document_request (c_text c))) as [v|e] eqn:Hv.
    + destruct (upsert_rejects svc (embedding_asked (document_request (c_text c)) w) name
                               (chunk_item video i c v)) as [e|] eqn:Hup.
      * simpl. unfold bind at 1. rewrite (get_embedding_ok _ _ _ _ Hv).
        unfold bind at 1, call_upsert. fold (chunk_item video i c v). rewrite Hup.
        discriminate.
      * rewrite (upsert_chunks_cons svc name video i c v chunks w (conj Hv Hup)).
        intros Hrest. apply IH in Hrest as [vs Hvs].
        exists (v :: vs). simpl. unfold chunk_succeeds. auto.
    + simpl. unfold bind at 1. rewrite (get_embedding_raise _ _ _ _ Hv). discriminate.
Qed.

Lemma chunk_items_length (video : string) (chunks : list chunk) :
  forall (i : nat) (vs : list vector),
    length chunks = length vs -> length (chunk_items video i chunks vs) = length chunks.
Proof.
  induction chunks as [|c chunks IH]; intros i [|v vs] Hlen; simpl in *; try lia.
  now rewrite IH by lia.
Qed.

Lemma chunks_succeed_length (svc : services) (name video : string) (chunks : list chunk) :
  forall (i : nat) (vs : list vector) (w : world),
    chunks_succeed svc name video i chunks vs w -> length chunks = length vs.
Proof.
  induction chunks as [|c chunks IH]; intros i [|v vs] w; simpl; try tauto.
  intros [_ Hrest]. now rewrite (IH _ _ _ Hrest).
Qed.

Lemma chunk_items_lookup (video : string) (chunks : list chunk) :
  forall (i j : nat) (vs : list vector) (it : item),
    chunk_items video i chunks vs !! j = Some it ->
    exists c v, chunks !! j = Some c /\ vs !! j = Some v /\
                it = chunk_item video (i + j) c v.
Proof.
  induction chunks as [|c chunks IH]; intros i j [|v vs] it; simpl; try discriminate.
  destruct j as [|j]; simpl.
  - intros [= <-]. exists c, v. now rewrite Nat.add_0_r.
  - intros Hit. apply IH in Hit as (c' & v' & Hc & Hv & ->).
    exists c', v'. repeat split; try assumption. f_equal. lia.
Qed.

Lemma chunk_items_lookup_Some (video : string) (chunks : list chunk) :
  forall (i j : nat) (vs : list vector) (c : chunk) (v : vector),
    chunks !! j = Some c -> vs !! j = Some v ->
    chunk_items video i chunks vs !! j = Some (chunk_item video (i + j) c v).
Proof.
  induction chunks as [|c' chunks IH]; intros i j vs c v Hc Hv.
  - now rewrite lookup_nil in Hc.
  - destruct vs as [|v' vs]; [now rewrite lookup_nil in Hv|].
    destruct j as [|j]; simpl in *.
    + injection Hc as <-. injection Hv as <-. now rewrite Nat.add_0_r.
    + replace (i + S j)%nat with (S i + j)%nat by lia. now apply IH.
Qed.

(** Chunk [j] of a run that goes through embedded to the [j]-th vector,
    in the world the chunks before it left. *)
Lemma chunks_succeed_lookup (svc : services) (name video : string) (chunks : list chunk) :
  forall (i j : nat) (vs : list vector) (c : chunk) (w : world),
    chunks_succeed svc name video i chunks vs w -> chunks !! j = Some c ->
    exists v w', vs !! j = Some v /\ chunk_succeeds svc name video (i + j) c v w'.
Proof.
  induction chunks as [|c' chunks IH]; intros i j [|v vs] c w; simpl; try tauto;
    try discriminate.
  intros [Hc Hrest]. destruct j as [|j]; simpl.
  - intros [= <-]. exists v, w. now rewrite Nat.add_0_r.
  - intros Hj. destruct (IH _ _ _ _ _ Hrest Hj) as (v' & w' & Hv' & Hok).
    exists v', w'. split; [assumption|].
    now replace (i + S j)%nat with (S i + j)%nat by lia.
Qed.

(** For services that answer by the request alone, a run that goes
    through from one world goes through from any other. *)
Lemma chunks_succeed_anywhere (svc : services) (name video : string) (chunks : list chunk) :
  answers_by_request svc ->
  forall (i : nat) (vs : list vector) (w w' : world),
    chunks_succeed svc name video i chunks vs w ->
    chunks_succeed svc name video i chunks vs w'.
Proof.
  intros Hsvc. induction chunks as [|c chunks IH]; intros i [|v vs] w w'; simpl; try tauto.
  intros [[Hv Hup] Hrest]. split.
  - split.
    + destruct (Hsvc w' w) as (He & _ & _). now rewrite He.
    + destruct (Hsvc (embedding_asked (document_request (c_text c)) w')
                     (embedding_asked (document_request (c_text c)) w)) as (_ & _ & Hu).
      now rewrite Hu.
  - eapply IH. exact Hrest.
Qed.


(** ** Writes to the store *)

Lemma foldl_store_put (name : string) (items : list item) :
  forall st : gmap (string * string) (vector * metadata),
    foldl (store_put name) st items
    = list_to_map (reverse (map (fun it => ((name, id it), (values it, item_metadata it)))
                                items)) ∪ st.
Proof.
  induction items as [|it items IH] using rev_ind; intros st.
  - simpl. now rewrite (left_id ∅ (∪)).
  - rewrite foldl_app, map_app, reverse_app. simpl.
    unfold store_put at 1. rewrite IH. now rewrite insert_union_l.
Qed.

(** Writing the same vectors a second time changes nothing. *)
Lemma store_put_twice (name : string) (items : list item)
    (st : gmap (string * string) (vector * metadata)) :
  foldl (store_put name) (foldl (store_put name) st items) items
  = foldl (store_put name) st items.
Proof.
  rewrite !foldl_store_put, (assoc (∪)). f_equal. apply (idemp (∪)).
Qed.

Lemma chunk_id_inj (video : string) (i j : nat) :
  chunk_id video i = chunk_id video j -> i = j.
Proof.
  unfold chunk_id. intros H.
  apply (inj (String.append video)) in H.
  apply (inj (String.append "_chunk_")) in H.
  now apply (inj pretty) in H.
Qed.

Lemma foldl_store_put_other (name : string) (items : list item) (key : string * string) :
  forall st : gmap (string * string) (vector * metadata),
    Forall (fun it => (name, id it) <> key) items ->
    foldl (store_put name) st items !! key = st !! key.
Proof.
  induction items as [|it items IH]; intros st Hall; simpl; [reflexivity|].
  apply Forall_cons in Hall as [Hne Hall].
  rewrite IH by assumption. unfold store_put. now rewrite lookup_insert_ne.
Qed.

(** After the loop went through, the store holds under the id of
    ordinal [i + j] the embedding and metadata of chunk [j]. *)
Lemma foldl_store_put_chunk (name video : string) (chunks : list chunk) :
  forall (i j : nat) (vs : list vector) (c : chunk) (v : vector)
         (st : gmap (string * string) (vector * metadata)),
    chunks !! j = Some c -> vs !! j = Some v ->
    foldl (store_put name) st (chunk_items video i chunks vs)
      !! (name, chunk_id video (i + j))
    = Some (v, chunk_metadata video c).
Proof.
  induction chunks as [|c' chunks IH]; intros i j vs c v st Hc Hv.
  - now rewrite lookup_nil in Hc.
  - destruct vs as [|v' vs]; [now rewrite lookup_nil in Hv|].
    destruct j as [|j]; simpl in *.
    + injection Hc as <-. injection Hv as <-. rewrite Nat.add_0_r.
      rewrite foldl_store_put_other.
      * unfold store_put. simpl. now rewrite lookup_insert_eq.
      * apply Forall_forall. intros it Hit.
        apply list_elem_of_lookup in Hit as [n Hn].
        apply chunk_items_lookup in Hn as (c0 & v0 & _ & _ & ->). simpl.
        intros [= H]. apply chunk_id_inj in H. lia.
    + replace (i + S j)%nat with (S i + j)%nat by lia.
      now apply IH.
Qed.

(** ** [index_video_transcript] as a whole *)

(** With a key, a handle and chunks, the call is the loop followed by
    the success line, under the handler that prints and raises again. *)
Lemma index_video_transcript_loop (svc : services) (env : gmap string string)
    (video : string) (captions : list entry) (name : option string) (key : string)
    (chunks : list chunk) (w : world) :
  truthy (getenv env "PINECONE_API_KEY") = Some key ->
  pinecone_index svc w key (resolve_index_name env name) = None ->
  create_chunks captions default_chunk_size = Ok chunks ->
  index_video_transcript svc env video (json_array captions) name w
  = try_except
      (upsert_chunks svc (resolve_index_name env name) video 0 chunks >>
       print "[bold green]✓[/bold green] Video transcript indexed successfully")
      (fun e =>
         print ("[red]Error indexing video transcript: " +:+ exn_msg e +:+ "[/red]") >>
         raise e)
      (index_asked key (resolve_index_name env name) w).
Proof.
  intros Hkey Hidx Hchunks. unfold index_video_transcript. rewrite Hkey.
  unfold try_except, bind at 1, call_pinecone_index. rewrite Hidx.
  unfold bind at 1, lift. simpl json_loads. cbv iota beta.
  unfold bind at 1, create_chunks_of. rewrite Hchunks. reflexivity.
Qed.

(** A call that returned had a key, a handle, a JSON array, chunks, and
    a loop that went through. *)
Lemma index_video_transcript_inv (svc : services) (env : gmap string string)
    (video : string) (td : json_text) (name : option string) (w w1 : world) :
  index_video_transcript svc env video td name w = (Ok tt, w1) ->
  exists key captions chunks vs,
    truthy (getenv env "PINECONE_API_KEY") = Some key /\
    pinecone_index svc w key (resolve_index_name env name) = None /\
    td = json_array captions /\
    create_chunks captions default_chunk_size = Ok chunks /\
    chunks_succeed svc (resolve_index_name env name) video 0 chunks vs
                   (index_asked key (resolve_index_name env name) w).
Proof.
  unfold index_video_transcript.
  destruct (truthy (getenv env "PINECONE_API_KEY")) as [key|] eqn:Hkey; [|discriminate].
  unfold try_except, bind at 1, call_pinecone_index.
  destruct (pinecone_index svc w key (resolve_index_name env name)) as [e|] eqn:Hidx;
    [discriminate|].
  unfold bind at 1, lift.
  destruct td as [|captions|complaint]; simpl json_loads; cbv iota beta;
    try discriminate.
  unfold bind at 1, create_chunks_of.
  destruct (create_chunks captions default_chunk_size) as [chunks|e] eqn:Hchunks;
    [|discriminate].
  unfold bind at 1.
  destruct (upsert_chunks svc (resolve_index_name env name) video 0 chunks _)
    as [[[]|e] w'] eqn:Hloop; [|discriminate].
  intros _. apply upsert_chunks_inv in Hloop as [vs Hvs].
  exists key, captions, chunks, vs. auto.
Qed.

(** The world a call that went through leaves behind. *)
Lemma index_video_transcript_ok (svc : services) (env : gmap string string)
    (video : string) (captions : list entry) (name : option string) (key : string)
    (chunks : list chunk) (vs : list vector) (w : world) :
  truthy (getenv env "PINECONE_API_KEY") = Some key ->
  pinecone_index svc w key (resolve_index_name env name) = None ->
  create_chunks captions default_chunk_size = Ok chunks ->
  chunks_succeed svc (resolve_index_name env name) video 0 chunks vs
                 (index_asked key (resolve_index_name env name) w) ->
  index_video_transcript svc env video (json_array captions) name w
  = (Ok tt,
     printed "[bold green]✓[/bold green] Video transcript indexed successfully"
       (after_upserts (resolve_index_name env name) chunks (chunk_items video 0 chunks vs)
          (index_asked key (resolve_index_name env name) w))).
Proof.
  intros Hkey Hidx Hchunks Hok.
  rewrite (index_video_transcript_loop _ _ _ _ _ _ _ _ Hkey Hidx Hchunks).
  unfold try_except, bind at 1.
  now rewrite (upsert_chunks_ok _ _ _ _ _ _ _ Hok).
Qed.

(** ** Embedding requests *)

Section EmbedsOnly.
Context {A B : Type} (P : embed_request -> Prop).

Lemma embeds_only_quiet (m : M A) :
  (forall w, embed_calls (snd (m w)) = embed_calls w) -> embeds_only P m.
Proof. intros H w. exists []. now rewrite H, app_nil_r. Qed.

Lemma embeds_only_bind (m : M A) (k : A -> M B) :
  embeds_only P m -> (forall a, embeds_only P (k a)) -> embeds_only P (bind m k).
Proof.
  intros Hm Hk w. unfold bind. destruct (Hm w) as (r1 & E1 & F1).
  destruct (m w) as [[a|e] w1]; simpl in E1.
  - destruct (Hk a w1) as (r2 & E2 & F2). exists (r1 ++ r2).
    rewrite E2, E1, app_assoc. split; [reflexivity | now apply Forall_app].
  - exists r1. auto.
Qed.

Lemma embeds_only_try (body : M A) (handler : exn -> M A) :
  embeds_only P body -> (forall e, embeds_only P (handler e)) ->
  embeds_only P (try_except body handler).
Proof.
  intros Hm Hk w. unfold try_except. destruct (Hm w) as (r1 & E1 & F1).
  destruct (body w) as [[a|e] w1]; simpl in E1.
  - exists r1. auto.
  - destruct (Hk e w1) as (r2 & E2 & F2). exists (r1 ++ r2).
    rewrite E2, E1, app_assoc. split; [reflexivity | now apply Forall_app].
Qed.
End EmbedsOnly.

Lemma embeds_only_get_embedding (svc : services) (P : embed_request -> Prop) (t : string) :
  P (document_request t) -> embeds_only P (get_embedding svc t).
Proof.
  intros HP w. exists [document_request t]. split; [|now repeat constructor].
  destruct (embed_content svc w (document_request t)) as [v|e] eqn:Hv.
  - now rewrite (get_embedding_ok _ _ _ _ Hv).
  - now rewrite (get_embedding_raise _ _ _ _ Hv).
Qed.

Lemma embeds_only_print {A} (P : embed_request -> Prop) (line : string) (k : M A) :
  embeds_only P k -> embeds_only P (print line >> k).
Proof.
  intros Hk. apply embeds_only_bind; [|intros _; exact Hk].
  now apply embeds_only_quiet.
Qed.

Lemma embeds_only_upsert_chunks (svc : services) (P : embed_request -> Prop)
    (name video : string) (chunks : list chunk) :
  (forall t, P (document_request t)) ->
  forall i, embeds_only P (upsert_chunks svc name video i chunks).
Proof.
  intros HP. induction chunks as [|c chunks IH]; intros i; simpl.
  - now apply embeds_only_quiet.
  - apply embeds_only_bind; [now apply embeds_only_get_embedding|].
    intros v. apply embeds_only_bind; [|intros _; apply IH].
    apply embeds_only_quiet. intros w. unfold call_upsert.
    now destruct (upsert_rejects svc w name _).
Qed.

Lemma embeds_only_index_video_transcript (svc : services) (env : gmap string string)
    (video : string) (td : json_text) (name : option string) :
  embeds_only (fun r => task_type r = task_type_of DOCUMENT)
              (index_video_transcript svc env video td name).
Proof.
  unfold index_video_transcript.
  destruct (truthy (getenv env "PINECONE_API_KEY")) as [key|];
    [|now apply embeds_only_quiet].
  apply embeds_only_try.
  - apply embeds_only_bind; [now apply embeds_only_quiet|]. intros _.
    apply embeds_only_bind; [now apply embeds_only_quiet|]. intros transcript.
    apply embeds_only_bind; [now apply embeds_only_quiet|]. intros chunks.
    apply embeds_only_bind; [now apply embeds_only_upsert_chunks|]. intros _.
    now apply embeds_only_quiet.
  - intros e. apply embeds_only_print. now apply embeds_only_quiet.
Qed.

Lemma embeds_only_search_videos (svc : services) (env : gmap string string)
    (query : string) (top_k : Z) (name : option string) :
  embeds_only (fun r => content r = query /\ task_type r = task_type_of DOCUMENT)
              (search_videos svc env query top_k name).
Proof.
  unfold search_videos.
  destruct (truthy (getenv env "PINECONE_API_KEY")) as [key|];
    [|now apply embeds_only_quiet].
  apply embeds_only_try.
  - apply embeds_only_bind; [now apply embeds_only_quiet|]. intros _.
    apply embeds_only_bind; [now apply embeds_only_get_embedding|]. intros v.
    apply embeds_only_bind; [now apply embeds_only_quiet|]. intros results.
    apply embeds_only_print. now apply embeds_only_quiet.
  - intros e. apply embeds_only_print. now apply embeds_only_quiet.
Qed.

(** ** What a call writes, whatever its outcome *)

(** With services that answer by the request alone, the outcome of the
    loop and the vectors it writes are fixed by the chunks; the world the
    loop starts in plays no part. *)
Lemma upsert_chunks_writes (svc : services) (name video : string) (chunks : list chunk) :
  answers_by_request svc ->
  forall i : nat, exists (r : result unit) (items : list item), forall w : world,
    exists w', upsert_chunks svc name video i chunks w = (r, w') /\
               store w' = foldl (store_put name) (store w) items.
Proof.
  intros Hsvc. induction chunks as [|c chunks IH]; intros i.
  - exists (Ok tt), []. intros w. exists w. split; reflexivity.
  - destruct (embed_content svc empty_world (document_request (c_text c))) as [v|e] eqn:Hv.
    + destruct (upsert_rejects svc empty_world name (chunk_item video i c v))
        as [e|] eqn:Hup.
      * exists (Raise e), []. intros w. simpl. unfold bind at 1.
        destruct (Hsvc w empty_world) as (He & _ & _). rewrite <- He in Hv.
        rewrite (get_embedding_ok _ _ _ _ Hv). unfold bind at 1, call_upsert.
        fold (chunk_item video i c v).
        destruct (Hsvc (embedding_asked (document_request (c_text c)) w) empty_world)
          as (_ & _ & Hu).
        rewrite Hu, Hup. eexists. split; reflexivity.
      * destruct (IH (S i)) as (r & items & Hrest).
        exists r, (chunk_item video i c v :: items). intros w.
        destruct (Hsvc w empty_world) as (He & _ & _). rewrite <- He in Hv.
        destruct (Hsvc (embedding_asked (document_request (c_text c)) w) empty_world)
          as (_ & _ & Hu).
        rewrite <- Hu in Hup.
        rewrite (upsert_chunks_cons svc name video i c v chunks w (conj Hv Hup)).
        apply Hrest.
    + exists (Raise e), []. intros w. simpl. unfold bind at 1.
      destruct (Hsvc w empty_world) as (He & _ & _). rewrite <- He in Hv.
      rewrite (get_embedding_raise _ _ _ _ Hv). eexists. split; reflexivity.
Qed.

Lemma index_video_transcript_writes (svc : services) (env : gmap string string)
    (video : string) (td : json_text) (name : option string) :
  answers_by_request svc ->
  exists items : list item, forall w : world,
    store (snd (index_video_transcript svc env video td name w))
    = foldl (store_put (resolve_index_name env name)) (store w) items.
Proof.
  intros Hsvc. unfold index_video_transcript.
  destruct (truthy (getenv env "PINECONE_API_KEY")) as [key|];
    [|exists []; reflexivity].
  unfold try_except, bind at 1, call_pinecone_index.
  destruct (pinecone_index svc empty_world key (resolve_index_name env name))
    as [e|] eqn:Hidx.
  { exists []. intros w. destruct (Hsvc w empty_world) as (_ & Hi & _).
    now rewrite Hi, Hidx. }
  unfold bind at 1, lift.
  destruct (json_loads td) as [transcript|e].
  2:{ exists []. intros w. destruct (Hsvc w empty_world) as (_ & Hi & _).
      now rewrite Hi, Hidx. }
  unfold bind at 1.
  destruct (create_chunks_of transcript) as [chunks|e].
  2:{ exists []. intros w. destruct (Hsvc w empty_world) as (_ & Hi & _).
      now rewrite Hi, Hidx. }
  destruct (upsert_chunks_writes svc (resolve_index_name env name) video chunks Hsvc 0)
    as (r & items & Hloop).
  exists items. intros w. destruct (Hsvc w empty_world) as (_ & Hi & _).
  rewrite Hi, Hidx. unfold bind at 1.
  destruct (Hloop (index_asked key (resolve_index_name env name) w)) as (w' & -> & Hst).
  destruct r as [[]|e]; exact Hst.
Qed.

(** Two calls in a row, whether they return or raise, leave the store
    as one call does. *)
Lemma index_video_transcript_store_twice (svc : services) (env : gmap string string)
    (video : string) (td : json_text) (name : option string) (w : world) :
  answers_by_request svc ->
  store (snd (index_video_transcript svc env video td name
                (snd (index_video_transcript svc env video td name w))))
  = store (snd (index_video_transcript svc env video td name w)).
Proof.
  intros Hsvc.
  destruct (index_video_transcript_writes svc env video td name Hsvc) as [items H].
  rewrite !H. apply store_put_twice.
Qed.

(** * The chunker *)

(** C1, as stated, fails: a caption that starts later than [timedelta]
    can hold makes [create_chunks] raise [OverflowError], so no chunk
    sequence is produced at all. *)
Lemma create_chunks_overflow_counterexample :
  ~ exists chunks,
      create_chunks [mk_entry "far" 100000000000000 1] 1 = Ok chunks /\
      Z.of_nat (length chunks) = ceil_div 1 1.
Proof. intros (chunks & Hrun & _). vm_compute in Hrun. discriminate. Qed.

(** C1 (amended): for every transcript of [N] captions whose times fit
    in a [timedelta] and every chunk size [k >= 1], [create_chunks]
    returns exactly [ceil(N/k)] chunks, and the chunk texts joined by
    single spaces are the caption texts joined by single spaces; an empty
    transcript gives an empty chunk sequence. *)
Theorem create_chunks_count_and_text (l : list entry) (k : Z) :
  1 <= k -> Forall (fun e => entry_fits e = true) l ->
  exists chunks,
    create_chunks l k = Ok chunks /\
    Z.of_nat (length chunks) = ceil_div (Z.of_nat (length l)) k /\
    (Z.of_nat (length chunks) - 1) * k < Z.of_nat (length l) <= Z.of_nat (length chunks) * k /\
    String.concat " " (map c_text chunks) = String.concat " " (map e_text l) /\
    (l = [] -> chunks = []).
Proof.
  intros Hk Hfit. unfold create_chunks, py_range.
  destruct (Z.eqb_spec k 0); [lia|].
  destruct (Z.ltb_spec 0 k); [|lia]. simpl.
  destruct (create_chunks_from l k ltac:(lia) Hfit
              (Z.to_nat (Z.of_nat (length l) - 0)) 0 []) as (cs & Hrun & Hlen & Hjoin);
    [lia|lia|].
  rewrite Z.sub_0_r, Z.max_r in Hlen by lia. simpl in Hjoin.
  exists cs. rewrite Hrun. repeat split; try assumption.
  - rewrite Hlen. apply ceil_div_spec. lia.
  - rewrite Hlen. apply ceil_div_spec. lia.
  - intros ->. simpl in Hlen. rewrite ceil_div_0 in Hlen by lia.
    destruct cs; [reflexivity | simpl in Hlen; lia].
Qed.

Lemma create_chunks_count_and_text_witness :
  exists chunks,
    create_chunks ex_entries 2 = Ok chunks /\
    Z.of_nat (length chunks) = ceil_div (Z.of_nat (length ex_entries)) 2 /\
    (Z.of_nat (length chunks) - 1) * 2 < Z.of_nat (length ex_entries)
      <= Z.of_nat (length chunks) * 2 /\
    String.concat " " (map c_text chunks) = String.concat " " (map e_text ex_entries) /\
    (ex_entries = [] -> chunks = []).
Proof.
  apply (create_chunks_count_and_text ex_entries 2); [lia|].
  repeat constructor.
Defined.

(** C6: every chunk of a chronological transcript with non-negative
    starts and durations has as text the texts of its group joined by
    single spaces in order, as start time the start of the group's first
    caption, as end time the start plus the duration of the group's last
    caption, and its end time is not before its start time. *)
Theorem chunk_fields_of_group (l : list entry) (k : Z) (chunks : list chunk)
    (j : nat) (c : chunk) :
  create_chunks l k = Ok chunks ->
  Sorted starts_before l ->
  Forall (fun e => (0 <= e_start e)%Q /\ (0 <= e_duration e)%Q) l ->
  chunks !! j = Some c ->
  exists first final,
    head (group_of l k j) = Some first /\
    last (group_of l k j) = Some final /\
    c_text c = String.concat " " (map e_text (group_of l k j)) /\
    c_start_time c = e_start first /\
    c_end_time c = (e_start final + e_duration final)%Q /\
    (c_start_time c <= c_end_time c)%Q.
Proof.
  intros Hrun Hsorted Hpos Hj.
  destruct (create_chunks_lookup _ _ _ _ _ Hrun Hj) as [Hk Hc].
  apply make_chunk_inv in Hc
    as (first & final & Hfirst & Hfinal & Htext & Hstart & Hend & _ & _).
  exists first, final. repeat split; try assumption.
  rewrite Hstart, Hend.
  pose proof (sorted_head_last _ _ _ (sorted_group l k j Hsorted) Hfirst Hfinal) as Hle.
  unfold starts_before in Hle.
  assert (Hd : (0 <= e_duration final)%Q).
  { apply last_Some_elem_of in Hfinal. unfold group_of in Hfinal.
    apply subseteq_take, subseteq_drop in Hfinal.
    eapply Forall_forall in Hpos; [apply Hpos | exact Hfinal]. }
  lra.
Qed.

Lemma chunk_fields_of_group_witness :
  exists first final,
    head (group_of ex_entries 2 1) = Some first /\
    last (group_of ex_entries 2 1) = Some final /\
    c_text (mk_chunk "a test" (7 # 2) (11 # 2) "0:00:03" "0:00:05")
    = String.concat " " (map e_text (group_of ex_entries 2 1)) /\
    c_start_time (mk_chunk "a test" (7 # 2) (11 # 2) "0:00:03" "0:00:05") = e_start first /\
    c_end_time (mk_chunk "a test" (7 # 2) (11 # 2) "0:00:03" "0:00:05")
    = (e_start final + e_duration final)%Q /\
    (c_start_time (mk_chunk "a test" (7 # 2) (11 # 2) "0:00:03" "0:00:05")
     <= c_end_time (mk_chunk "a test" (7 # 2) (11 # 2) "0:00:03" "0:00:05"))%Q.
Proof.
  eapply (chunk_fields_of_group ex_entries 2 _ 1).
  - vm_compute. reflexivity.
  - repeat constructor; unfold starts_before; simpl; lra.
  - repeat constructor; simpl; lra.
  - reflexivity.
Defined.

(** C7, as stated, fails: a chunk that starts a day or more into the
    video is not rendered as hours:minutes:seconds; 90000 seconds come
    out as ["1 day, 1:00:00"], not ["25:00:00"]. *)
Lemma day_long_rendering_counterexample :
  exists c,
    create_chunks [mk_entry "late" 90000 1] 1 = Ok [c] /\
    c_start_formatted c = "1 day, 1:00:00" /\
    hms (py_int (c_start_time c)) = "25:00:00" /\
    c_start_formatted c <> hms (py_int (c_start_time c)).
Proof.
  eexists. split; [vm_compute; reflexivity|].
  split; [reflexivity|]. split; [vm_compute; reflexivity|].
  vm_compute. discriminate.
Qed.

(** C7 (amended): for every chunk, [start_formatted] and [end_formatted]
    render the integer-truncated [start_time] and [end_time] as the whole
    days, when there are any (["D day, "] or ["D days, "]), followed by
    the hours, minutes and seconds within the day with minutes and
    seconds on two digits; a time under one day is rendered as plain
    hours:minutes:seconds, 125 seconds as ["0:02:05"] and 3725 seconds as
    ["1:02:05"]. *)
Theorem chunk_times_rendered (l : list entry) (k : Z) (chunks : list chunk) (c : chunk) :
  create_chunks l k = Ok chunks -> In c chunks ->
  c_start_formatted c
  = day_prefix (py_int (c_start_time c) / 86400) +:+ hms (py_int (c_start_time c) mod 86400) /\
  c_end_formatted c
  = day_prefix (py_int (c_end_time c) / 86400) +:+ hms (py_int (c_end_time c) mod 86400) /\
  (0 <= py_int (c_start_time c) < 86400 ->
   c_start_formatted c = hms (py_int (c_start_time c))) /\
  (0 <= py_int (c_end_time c) < 86400 ->
   c_end_formatted c = hms (py_int (c_end_time c))) /\
  format_seconds 125 = Ok "0:02:05" /\
  format_seconds 3725 = Ok "1:02:05".
Proof.
  intros Hrun Hin. apply list_elem_of_In in Hin.
  destruct (create_chunks_elem _ _ _ _ Hrun Hin) as [g Hc].
  apply make_chunk_inv in Hc as (_ & _ & _ & _ & _ & _ & _ & Hsf & Hef).
  apply format_seconds_hms in Hsf, Hef.
  assert (Hday : forall n s, 0 <= n < 86400 ->
            s = day_prefix (n / 86400) +:+ hms (n mod 86400) -> s = hms n).
  { intros n s Hn ->. rewrite Z.div_small, Z.mod_small by lia. reflexivity. }
  repeat split; try assumption; try (vm_compute; reflexivity).
  - intros Hn. now apply Hday.
  - intros Hn. now apply Hday.
Qed.

Lemma chunk_times_rendered_witness :
  c_start_formatted (mk_chunk "a test" (7 # 2) (11 # 2) "0:00:03" "0:00:05")
  = day_prefix (py_int (7 # 2) / 86400) +:+ hms (py_int (7 # 2) mod 86400) /\
  c_end_formatted (mk_chunk "a test" (7 # 2) (11 # 2) "0:00:03" "0:00:05")
  = day_prefix (py_int (11 # 2) / 86400) +:+ hms (py_int (11 # 2) mod 86400) /\
  (0 <= py_int (7 # 2) < 86400 ->
   c_start_formatted (mk_chunk "a test" (7 # 2) (11 # 2) "0:00:03" "0:00:05")
   = hms (py_int (7 # 2))) /\
  (0 <= py_int (11 # 2) < 86400 ->
   c_end_formatted (mk_chunk "a test" (7 # 2) (11 # 2) "0:00:03" "0:00:05")
   = hms (py_int (11 # 2))) /\
  format_seconds 125 = Ok "0:02:05" /\
  format_seconds 3725 = Ok "1:02:05".
Proof.
  eapply (chunk_times_rendered ex_entries 2 _
            (mk_chunk "a test" (7 # 2) (11 # 2) "0:00:03" "0:00:05")).
  - vm_compute. reflexivity.
  - simpl. right. left. reflexivity.
Defined.

(** C8, as stated, fails: with a negative chunk size the call succeeds
    and returns no chunks, and no [InvalidConfiguration] is raised. *)
Lemma negative_chunk_size_counterexample :
  create_chunks ex_entries (-1) = Ok [] /\
  ~ exists e, create_chunks ex_entries (-1) = Raise e /\
              exn_class e = "InvalidConfiguration".
Proof.
  split; [vm_compute; reflexivity|].
  intros (e & Hrun & _). vm_compute in Hrun. discriminate.
Qed.

(** C8 (amended): for every transcript, [create_chunks] with chunk size
    0 raises the [ValueError] of [range] ("range() arg 3 must not be
    zero"), and with a negative chunk size it returns the empty chunk
    sequence without an error. *)
Theorem create_chunks_nonpositive_size (l : list entry) (k : Z) :
  k <= 0 ->
  (k = 0 ->
   create_chunks l k = Raise (Exn "ValueError" "range() arg 3 must not be zero")) /\
  (k < 0 -> create_chunks l k = Ok []).
Proof.
  intros Hk. unfold create_chunks, py_range. split.
  - intros ->. reflexivity.
  - intros Hneg. destruct (Z.eqb_spec k 0); [lia|].
    destruct (Z.ltb_spec 0 k); [lia|]. simpl.
    replace (Z.to_nat (0 - Z.of_nat (length l))) with 0%nat by lia. reflexivity.
Qed.

Lemma create_chunks_nonpositive_size_witness :
  (0 = 0 ->
   create_chunks ex_entries 0 = Raise (Exn "ValueError" "range() arg 3 must not be zero")) /\
  (0 < 0 -> create_chunks ex_entries 0 = Ok []).
Proof. apply (create_chunks_nonpositive_size ex_entries 0). lia. Defined.

(** * The transcript fetcher *)

(** C9, as stated, fails: when the transcript service reports that a
    video has no captions, [get_json_transcript] returns the JSON text
    [null] and raises nothing. *)
Lemma missing_transcript_counterexample :
  get_transcript_api ex_services empty_world "zz"
  = Raise (Exn "TranscriptsDisabled" "Subtitles are disabled for this video") /\
  fst (get_json_transcript ex_services "zz" empty_world) = Ok json_null /\
  ~ exists e, fst (get_json_transcript ex_services "zz" empty_world) = Raise e /\
              exn_class e = "TranscriptUnavailable".
Proof.
  split; [reflexivity|]. split; [reflexivity|].
  intros (e & Hrun & _). discriminate.
Qed.

(** C9 (amended): when the transcript service fails for a video id,
    [get_transcript] catches the failure, prints "An error occurred: ..."
    and returns [None]; neither it nor [get_json_transcript] raises an
    error to the caller. *)
Theorem missing_transcript_is_swallowed (svc : services) (video : string) (e : exn)
    (w : world) :
  get_transcript_api svc w video = Raise e ->
  get_transcript svc video w
  = (Ok None, printed ("An error occurred: " +:+ exn_msg e) (transcript_asked video w)) /\
  exists dumped, fst (get_json_transcript svc video w) = Ok dumped.
Proof.
  intros He.
  assert (Hget : get_transcript svc video w
                 = (Ok None,
                    printed ("An error occurred: " +:+ exn_msg e) (transcript_asked video w))).
  { unfold get_transcript, try_except, bind at 1, call_get_transcript.
    rewrite He. reflexivity. }
  split; [exact Hget|].
  unfold get_json_transcript, bind. rewrite Hget. eexists. reflexivity.
Qed.

Lemma missing_transcript_is_swallowed_witness :
  get_transcript ex_services "zz" empty_world
  = (Ok None,
     printed ("An error occurred: "
                +:+ exn_msg (Exn "TranscriptsDisabled" "Subtitles are disabled for this video"))
             (transcript_asked "zz" empty_world)) /\
  exists dumped, fst (get_json_transcript ex_services "zz" empty_world) = Ok dumped.
Proof.
  apply (missing_transcript_is_swallowed ex_services "zz"
           (Exn "TranscriptsDisabled" "Subtitles are disabled for this video") empty_world).
  reflexivity.
Defined.

(** * The missing API key *)

(** C10: when the environment has no [PINECONE_API_KEY],
    [index_video_transcript] and [search_videos] each raise a
    [ValueError] and leave the world as it was: no embedding request, no
    index handle, no upsert and no query has been issued, and the store
    is unchanged. *)
Theorem missing_api_key_raises_first (svc : services) (env : gmap string string)
    (w : world) :
  getenv env "PINECONE_API_KEY" = None ->
  (forall video td name,
      index_video_transcript svc env video td name w
      = (Raise (Exn "ValueError" "PINECONE_API_KEY not found in environment variables"), w)) /\
  (forall query top_k name,
      search_videos svc env query top_k name w
      = (Raise (Exn "ValueError" "PINECONE_API_KEY not found in environment variables"), w)).
Proof.
  intros Hkey. split; intros; unfold index_video_transcript, search_videos;
    rewrite Hkey; reflexivity.
Qed.

Lemma missing_api_key_raises_first_witness :
  (forall video td name,
      index_video_transcript ex_services ∅ video td name empty_world
      = (Raise (Exn "ValueError" "PINECONE_API_KEY not found in environment variables"),
         empty_world)) /\
  (forall query top_k name,
      search_videos ex_services ∅ query top_k name empty_world
      = (Raise (Exn "ValueError" "PINECONE_API_KEY not found in environment variables"),
         empty_world)).
Proof. apply (missing_api_key_raises_first ex_services ∅ empty_world). reflexivity. Defined.

(** * Embedding intent *)

(** C4, as stated, fails: the embedding of a search query is requested
    with the task type of documents, not the one of queries. *)
Lemma query_embedding_counterexample :
  embed_calls (snd (search_videos ex_services ex_env "hello" 5 None empty_world))
  = [mk_embed_request "models/embedding-001" "hello" "retrieval_document"] /\
  ~ Forall (fun r => task_type r = task_type_of QUERY)
           (embed_calls (snd (search_videos ex_services ex_env "hello" 5 None empty_world))).
Proof.
  split; [vm_compute; reflexivity|].
  intros Hall. vm_compute in Hall. apply Forall_cons in Hall as [Hq _]. discriminate.
Qed.

(** C4 (amended): every embedding requested while indexing carries the
    DOCUMENT intent, and so does every embedding requested by
    [search_videos], whose content is the query string: the task type is
    ["retrieval_document"] on both paths. *)
Theorem embeddings_use_document_task_type (svc : services) (env : gmap string string)
    (w : world) :
  (forall video td name, exists reqs,
      embed_calls (snd (index_video_transcript svc env video td name w))
      = embed_calls w ++ reqs /\
      Forall (fun r => task_type r = "retrieval_document") reqs) /\
  (forall query top_k name, exists reqs,
      embed_calls (snd (search_videos svc env query top_k name w))
      = embed_calls w ++ reqs /\
      Forall (fun r => content r = query /\ task_type r = "retrieval_document") reqs).
Proof.
  split.
  - intros video td name.
    apply (embeds_only_index_video_transcript svc env video td name w).
  - intros query top_k name.
    apply (embeds_only_search_videos svc env query top_k name w).
Qed.

(** * The retriever *)

(** C5: for every query and every positive [top_k], when the key is
    set, the embedding succeeds and the store answers with matches, no
    more of them than asked for, [search_videos] returns one result per
    match, in the order of the matches (descending scores stay
    descending), each carrying the [video_id], [text], [start_time],
    [end_time], [start_formatted], [end_formatted] and [score] of its
    match, so at most [top_k] results; no match gives the empty sequence,
    which is not an error. *)
Theorem search_videos_maps_matches (svc : services) (env : gmap string string)
    (query : string) (top_k : Z) (name : option string) (key : string) (v : vector)
    (ms : list scored_match) (w : world) :
  0 < top_k ->
  honours_top_k svc ->
  truthy (getenv env "PINECONE_API_KEY") = Some key ->
  pinecone_index svc w key (resolve_index_name env name) = None ->
  embed_content svc (index_asked key (resolve_index_name env name) w)
                (document_request query) = Ok v ->
  pinecone_query svc
    (embedding_asked (document_request query)
                     (index_asked key (resolve_index_name env name) w))
    (mk_query (resolve_index_name env name) v top_k true) = Ok ms ->
  exists results w',
    search_videos svc env query top_k name w = (Ok results, w') /\
    Z.of_nat (length results) <= top_k /\
    Forall2 carries ms results /\
    (Sorted (fun a b => (m_score b <= m_score a)%Q) ms ->
     Sorted (fun a b => (score b <= score a)%Q) results) /\
    (ms = [] -> results = []) /\
    query_calls w' = query_calls w ++ [mk_query (resolve_index_name env name) v top_k true] /\
    store w' = store w.
Proof.
  intros Hk Hstore Hkey Hidx Hv Hms.
  exists (map result_of_match ms). eexists.
  split.
  - unfold search_videos. rewrite Hkey.
    unfold try_except, bind at 1, call_pinecone_index. rewrite Hidx.
    unfold bind at 1. rewrite (get_embedding_ok _ _ _ _ Hv).
    unfold bind at 1, call_query. rewrite Hms. reflexivity.
  - simpl. split; [|split; [|split; [|split; [|split; reflexivity]]]].
    + rewrite length_map. apply Hstore in Hms. simpl in Hms. lia.
    + clear Hms. induction ms as [|m ms IH]; constructor; [|exact IH].
      unfold carries. simpl. tauto.
    + apply (Sorted_fmap result_of_match). intros a b Hab. exact Hab.
    + intros ->. reflexivity.
Qed.

Lemma search_videos_maps_matches_witness :
  exists results w',
    search_videos ex_services ex_env "hello" 1 None empty_world = (Ok results, w') /\
    Z.of_nat (length results) <= 1 /\
    Forall2 carries (take 1 ex_matches) results /\
    (Sorted (fun a b => (m_score b <= m_score a)%Q) (take 1 ex_matches) ->
     Sorted (fun a b => (score b <= score a)%Q) results) /\
    (take 1 ex_matches = [] -> results = []) /\
    query_calls w'
    = query_calls empty_world ++ [mk_query (resolve_index_name ex_env None) [5%Q] 1 true] /\
    store w' = store empty_world.
Proof.
  apply (search_videos_maps_matches ex_services ex_env "hello" 1 None "pk" [5%Q]
           (take 1 ex_matches) empty_world).
  - lia.
  - intros st q ms [= <-]. rewrite length_take. lia.
  - vm_compute. reflexivity.
  - reflexivity.
  - vm_compute. reflexivity.
  - vm_compute. reflexivity.
Defined.

(** * The index writer *)

(** C2: a call of [index_video_transcript] that returns has upserted,
    for every chunk [i] of the chunk sequence counted from 0, exactly one
    vector whose id is ["<video_id>_chunk_<i>"], with the embedding of
    the chunk text and the chunk's metadata, and the store holds it under
    that id; when the services answer by the request alone, a second call
    with the same arguments returns as well, upserts the same ids with
    the same vectors and metadata, and leaves the store as the first call
    left it. *)
Theorem reindexing_is_idempotent (svc : services) (env : gmap string string)
    (video : string) (td : json_text) (name : option string) (w w1 : world) :
  index_video_transcript svc env video td name w = (Ok tt, w1) ->
  exists captions chunks items,
    td = json_array captions /\
    create_chunks captions default_chunk_size = Ok chunks /\
    length items = length chunks /\
    upsert_calls w1 = upsert_calls w ++ map (pair (resolve_index_name env name)) items /\
    (forall i c, chunks !! i = Some c ->
       exists vec w0,
         embed_content svc w0 (document_request (c_text c)) = Ok vec /\
         items !! i = Some (mk_item (video +:+ "_chunk_" +:+ pretty i) vec
                                    (chunk_metadata video c)) /\
         store w1 !! (resolve_index_name env name, video +:+ "_chunk_" +:+ pretty i)
         = Some (vec, chunk_metadata video c)) /\
    (answers_by_request svc ->
     exists w2,
       index_video_transcript svc env video td name w1 = (Ok tt, w2) /\
       upsert_calls w2 = upsert_calls w1 ++ map (pair (resolve_index_name env name)) items /\
       store w2 = store w1).
Proof.
  intros Hrun.
  destruct (index_video_transcript_inv _ _ _ _ _ _ _ Hrun)
    as (key & captions & chunks & vs & Hkey & Hidx & -> & Hchunks & Hok).
  set (idx := resolve_index_name env name) in *.
  rewrite (index_video_transcript_ok _ _ _ _ _ _ _ _ _ Hkey Hidx Hchunks Hok) in Hrun.
  fold idx in Hrun. injection Hrun as <-.
  pose proof (chunks_succeed_length _ _ _ _ _ _ _ Hok) as Hlen.
  exists captions, chunks, (chunk_items video 0 chunks vs).
  split; [reflexivity|]. split; [assumption|].
  split; [now apply chunk_items_length|]. split; [reflexivity|].
  split.
  - intros i c Hc.
    destruct (chunks_succeed_lookup _ _ _ _ _ _ _ _ _ Hok Hc) as (vec & w0 & Hvec & [Hemb _]).
    exists vec, w0. split; [assumption|]. split.
    + apply (chunk_items_lookup_Some video chunks 0 i vs c vec Hc Hvec).
    + simpl store. apply (foldl_store_put_chunk idx video chunks 0 i vs c vec _ Hc Hvec).
  - intros Hsvc. eexists. split.
    + apply (index_video_transcript_ok svc env video captions name key chunks vs).
      * exact Hkey.
      * destruct (Hsvc
                    (printed "[bold green]✓[/bold green] Video transcript indexed successfully"
                       (after_upserts idx chunks (chunk_items video 0 chunks vs)
                          (index_asked key idx w))) w) as (_ & Hi & _).
        fold idx. now rewrite Hi.
      * exact Hchunks.
      * eapply chunks_succeed_anywhere; [exact Hsvc | exact Hok].
    + fold idx. simpl. split; [reflexivity|]. apply store_put_twice.
Qed.

Lemma reindexing_is_idempotent_witness :
  exists captions chunks items,
    json_array ex_entries = json_array captions /\
    create_chunks captions default_chunk_size = Ok chunks /\
    length items = length chunks /\
    upsert_calls
      (snd (index_video_transcript ex_services ex_env "v" (json_array ex_entries) None
              empty_world))
    = upsert_calls empty_world ++ map (pair (resolve_index_name ex_env None)) items /\
    (forall i c, chunks !! i = Some c ->
       exists vec w0,
         embed_content ex_services w0 (document_request (c_text c)) = Ok vec /\
         items !! i = Some (mk_item ("v" +:+ "_chunk_" +:+ pretty i) vec
                                    (chunk_metadata "v" c)) /\
         store
           (snd (index_video_transcript ex_services ex_env "v" (json_array ex_entries) None
                   empty_world))
           !! (resolve_index_name ex_env None, "v" +:+ "_chunk_" +:+ pretty i)
         = Some (vec, chunk_metadata "v" c)) /\
    exists w2,
      index_video_transcript ex_services ex_env "v" (json_array ex_entries) None
        (snd (index_video_transcript ex_services ex_env "v" (json_array ex_entries) None
                empty_world))
      = (Ok tt, w2) /\
      upsert_calls w2
      = upsert_calls
          (snd (index_video_transcript ex_services ex_env "v" (json_array ex_entries) None
                  empty_world))
        ++ map (pair (resolve_index_name ex_env None)) items /\
      store w2
      = store
          (snd (index_video_transcript ex_services ex_env "v" (json_array ex_entries) None
                  empty_world)).
Proof.
  destruct (reindexing_is_idempotent ex_services ex_env "v" (json_array ex_entries) None
              empty_world
              (snd (index_video_transcript ex_services ex_env "v" (json_array ex_entries)
                      None empty_world)))
    as (captions & chunks & items & Htd & Hchunks & Hlen & Hups & Hids & Hagain).
  - vm_compute. reflexivity.
  - exists captions, chunks, items.
    split; [exact Htd|]. split; [exact Hchunks|]. split; [exact Hlen|].
    split; [exact Hups|]. split; [exact Hids|].
    apply Hagain. intros w w'. split; [|split]; reflexivity.
Defined.




(** * Further properties of the chunker *)

Lemma create_chunks_length (l : list entry) (k : Z) (chunks : list chunk) :
  0 < k -> create_chunks l k = Ok chunks ->
  Z.of_nat (length chunks) = ceil_div (Z.of_nat (length l)) k.
Proof.
  intros Hk. unfold create_chunks, py_range.
  destruct (Z.eqb_spec k 0); [lia|].
  destruct (Z.ltb_spec 0 k); [|lia]. simpl. intros Hrun.
  apply create_chunks_loop_inv in Hrun as (cs & -> & Hall).
  apply Forall2_length in Hall. simpl. rewrite <- Hall.
  rewrite range_up_length by lia. f_equal. lia.
Qed.

Lemma groups_concat (l : list entry) (k : Z) (n : nat) :
  concat (map (group_of l k) (seq 0 n)) = take (n * Z.to_nat k) l.
Proof.
  induction n as [|n IH]; [reflexivity|].
  rewrite seq_S, map_app, List.concat_app, IH. simpl. rewrite app_nil_r.
  unfold group_of. rewrite take_take_drop. f_equal. lia.
Qed.

Lemma group_of_length (l : list entry) (k : Z) (j : nat) :
  length (group_of l k j) = Nat.min (Z.to_nat k) (length l - j * Z.to_nat k).
Proof. unfold group_of. now rewrite length_take, length_drop. Qed.

(** X1: for a chunk size of at least 1, the groups behind the chunks
    partition the transcript: put one after the other they are the
    transcript, so every caption is in exactly one chunk; every group
    holds between 1 and [chunk_size] captions and every group but the
    last holds exactly [chunk_size]. *)
Theorem chunks_partition_transcript (l : list entry) (k : Z) (chunks : list chunk) :
  1 <= k -> create_chunks l k = Ok chunks ->
  concat (map (group_of l k) (seq 0 (length chunks))) = l /\
  (forall j, (j < length chunks)%nat ->
             (1 <= length (group_of l k j) <= Z.to_nat k)%nat) /\
  (forall j, (S j < length chunks)%nat -> length (group_of l k j) = Z.to_nat k) /\
  (forall j c, chunks !! j = Some c -> make_chunk (group_of l k j) = Ok c).
Proof.
  intros Hk Hrun.
  pose proof (create_chunks_length l k chunks ltac:(lia) Hrun) as Hlen.
  pose proof (ceil_div_spec (Z.of_nat (length l)) k ltac:(lia)) as [Hlo Hhi].
  rewrite <- Hlen in Hlo, Hhi.
  split; [|split; [|split]].
  - rewrite groups_concat. apply take_ge. nia.
  - intros j Hj. rewrite group_of_length. nia.
  - intros j Hj. rewrite group_of_length. nia.
  - intros j c Hj. now destruct (create_chunks_lookup _ _ _ _ _ Hrun Hj).
Qed.

Lemma chunks_partition_transcript_witness :
  concat (map (group_of ex_entries 2) (seq 0 (length ex_halves))) = ex_entries /\
  (forall j, (j < length ex_halves)%nat ->
             (1 <= length (group_of ex_entries 2 j) <= Z.to_nat 2)%nat) /\
  (forall j, (S j < length ex_halves)%nat ->
             length (group_of ex_entries 2 j) = Z.to_nat 2) /\
  (forall j c, ex_halves !! j = Some c -> make_chunk (group_of ex_entries 2 j) = Ok c).
Proof.
  apply (chunks_partition_transcript ex_entries 2); [lia|].
  vm_compute. reflexivity.
Defined.







Lemma StronglySorted_lookup_lt {A} (R : A -> A -> Prop) (l : list A) :
  StronglySorted R l ->
  forall (a b : nat) (x y : A),
    (a < b)%nat -> l !! a = Some x -> l !! b = Some y -> R x y.
Proof.
  induction 1 as [|z l Hs IH Hall]; intros a b x y Hab Hx Hy.
  - now rewrite lookup_nil in Hx.
  - destruct b as [|b]; [lia|]. simpl in Hy. destruct a as [|a]; simpl in Hx.
    + injection Hx as <-. eapply Forall_forall in Hall; [exact Hall|].
      eapply list_elem_of_lookup_2. exact Hy.
    + eapply (IH a b); [lia | exact Hx | exact Hy].
Qed.

Lemma group_of_head (l : list entry) (k : Z) (j : nat) :
  0 < k -> head (group_of l k j) = l !! (j * Z.to_nat k)%nat.
Proof.
  intros Hk. unfold group_of. rewrite head_lookup, lookup_take_lt by lia.
  rewrite lookup_drop. f_equal. lia.
Qed.

(** X3: in the chunks of a chronological transcript the start times do
    not decrease from one chunk to a later one. *)
Theorem chunk_starts_nondecreasing (l : list entry) (k : Z) (chunks : list chunk)
    (i j : nat) (ci cj : chunk) :
  create_chunks l k = Ok chunks -> Sorted starts_before l -> (i <= j)%nat ->
  chunks !! i = Some ci -> chunks !! j = Some cj ->
  (c_start_time ci <= c_start_time cj)%Q.
Proof.
  intros Hrun Hsorted Hij Hi Hj.
  destruct (create_chunks_lookup _ _ _ _ _ Hrun Hi) as [Hk Hci].
  destruct (create_chunks_lookup _ _ _ _ _ Hrun Hj) as [_ Hcj].
  apply make_chunk_inv in Hci as (fi & _ & Hfi & _ & _ & -> & _).
  apply make_chunk_inv in Hcj as (fj & _ & Hfj & _ & _ & -> & _).
  rewrite group_of_head in Hfi, Hfj by assumption.
  destruct (decide (i = j)) as [->|Hne].
  - rewrite Hfi in Hfj. injection Hfj as ->. apply Qle_refl.
  - apply (@Sorted_StronglySorted _ starts_before starts_before_trans) in Hsorted.
    apply (StronglySorted_lookup_lt starts_before l Hsorted
             (i * Z.to_nat k) (j * Z.to_nat k) fi fj); [nia | assumption | assumption].
Qed.

Lemma chunk_starts_nondecreasing_witness :
  (c_start_time (mk_chunk "Hello world this is" 0 (7 # 2) "0:00:00" "0:00:03")
   <= c_start_time (mk_chunk "a test" (7 # 2) (11 # 2) "0:00:03" "0:00:05"))%Q.
Proof.
  apply (chunk_starts_nondecreasing ex_entries 2 ex_halves 0 1).
  - vm_compute. reflexivity.
  - repeat constructor; unfold starts_before; simpl; lra.
  - lia.
  - reflexivity.
  - reflexivity.
Defined.

(** * [format_transcript] *)










(** * What a computation leaves alone *)

Section Preserves.
Context {X : Type} (f : world -> X).

Lemma preserves_ret {A} (a : A) : preserves f (ret a).
Proof. intros w. reflexivity. Qed.

Lemma preserves_raise {A} (e : exn) : preserves f (@raise A e).
Proof. intros w. reflexivity. Qed.

Lemma preserves_lift {A} (r : result A) : preserves f (lift r).
Proof. intros w. reflexivity. Qed.

Lemma preserves_bind {A B} (m : M A) (k : A -> M B) :
  preserves f m -> (forall a, preserves f (k a)) -> preserves f (bind m k).
Proof.
  intros Hm Hk w. unfold bind. specialize (Hm w).
  destruct (m w) as [[a|e] w1]; simpl in *; [|exact Hm].
  now rewrite (Hk a w1).
Qed.

Lemma preserves_try {A} (body : M A) (handler : exn -> M A) :
  preserves f body -> (forall e, preserves f (handler e)) ->
  preserves f (try_except body handler).
Proof.
  intros Hm Hk w. unfold try_except. specialize (Hm w).
  destruct (body w) as [[a|e] w1]; simpl in *; [exact Hm|].
  now rewrite (Hk e w1).
Qed.

Lemma preserves_print {A} (line : string) (k : M A) :
  (forall w, f (printed line w) = f w) -> preserves f k -> preserves f (print line >> k).
Proof.
  intros Hp Hk. apply preserves_bind; [|intros _; exact Hk].
  intros w. apply Hp.
Qed.

Lemma preserves_get_embedding (svc : services) (t : string) :
  (forall line w, f (printed line w) = f w) ->
  (forall req w, f (embedding_asked req w) = f w) ->
  preserves f (get_embedding svc t).
Proof.
  intros Hp He w. destruct (embed_content svc w (document_request t)) as [v|e] eqn:Hv.
  - rewrite (get_embedding_ok _ _ _ _ Hv). apply He.
  - rewrite (get_embedding_raise _ _ _ _ Hv). simpl. now rewrite Hp, He.
Qed.
End Preserves.

(** The loop leaves alone every store entry that is not under an id of
    the ordinals it goes through. *)
Lemma upsert_chunks_frame (svc : services) (name video : string) (key : string * string)
    (chunks : list chunk) :
  forall i : nat,
    (forall j, (i <= j < i + length chunks)%nat -> key <> (name, chunk_id video j)) ->
    preserves (fun w => store w !! key) (upsert_chunks svc name video i chunks).
Proof.
  induction chunks as [|c chunks IH]; intros i Hkey; simpl.
  - apply preserves_ret.
  - apply preserves_bind; [now apply preserves_get_embedding|]. intros v.
    apply preserves_bind.
    + intros w. unfold call_upsert.
      destruct (upsert_rejects svc w name _); [reflexivity|]. simpl.
      apply lookup_insert_ne. intros Heq. apply (Hkey i); [simpl; lia | now rewrite Heq].
    + intros _. apply IH. intros j Hj. apply Hkey. simpl. lia.
Qed.

Lemma index_video_transcript_frame (svc : services) (env : gmap string string)
    (video : string) (td : json_text) (name : option string) (key : string * string) :
  (forall j, key <> (resolve_index_name env name, chunk_id video j)) ->
  preserves (fun w => store w !! key) (index_video_transcript svc env video td name).
Proof.
  intros Hkey. unfold index_video_transcript.
  destruct (truthy (getenv env "PINECONE_API_KEY")) as [k|]; [|apply preserves_raise].
  apply preserves_try.
  - apply preserves_bind; [intros w; reflexivity|]. intros _.
    apply preserves_bind; [apply preserves_lift|]. intros transcript.
    apply preserves_bind; [apply preserves_lift|]. intros chunks.
    apply preserves_bind; [|intros _; intros w; reflexivity].
    apply upsert_chunks_frame. intros j _. apply Hkey.
  - intros e. apply preserves_print; [reflexivity | apply preserves_raise].
Qed.

(** X5: [index_video_transcript] writes to the store only under ids of
    the form ["<video_id>_chunk_<j>"] in the index it resolved: whatever
    the outcome of the call, every entry under another key, be it
    another index or another id, is as it was. *)
Theorem indexing_touches_own_ids_only (svc : services) (env : gmap string string)
    (video : string) (td : json_text) (name : option string) (w : world)
    (key : string * string) :
  (forall j : nat, key <> (resolve_index_name env name, video +:+ "_chunk_" +:+ pretty j)) ->
  store (snd (index_video_transcript svc env video td name w)) !! key = store w !! key.
Proof.
  intros Hkey. apply (index_video_transcript_frame svc env video td name key Hkey w).
Qed.

Lemma indexing_touches_own_ids_only_witness :
  store (snd (index_video_transcript ex_services ex_env "v" (json_array ex_entries) None
                ex_stale_world)) !! ("other-index", "v_chunk_0")
  = store ex_stale_world !! ("other-index", "v_chunk_0").
Proof.
  apply (indexing_touches_own_ids_only ex_services ex_env "v" (json_array ex_entries) None
           ex_stale_world ("other-index", "v_chunk_0")).
  intros j H. vm_compute in H. discriminate.
Defined.

(** X6: re-indexing does not clean up: when the transcript now gives
    fewer chunks than before, the vectors stored under the ordinals from
    the new chunk count on are still in the store, unchanged, after the
    call, whatever its outcome. *)
Theorem stale_chunks_remain (svc : services) (env : gmap string string)
    (video : string) (captions : list entry) (name : option string) (chunks : list chunk)
    (j : nat) (w : world) :
  create_chunks captions default_chunk_size = Ok chunks ->
  (length chunks <= j)%nat ->
  store (snd (index_video_transcript svc env video (json_array captions) name w))
    !! (resolve_index_name env name, video +:+ "_chunk_" +:+ pretty j)
  = store w !! (resolve_index_name env name, video +:+ "_chunk_" +:+ pretty j).
Proof.
  intros Hchunks Hj. unfold index_video_transcript.
  destruct (truthy (getenv env "PINECONE_API_KEY")) as [k|]; [|reflexivity].
  set (idx := resolve_index_name env name).
  apply (preserves_try (fun w => store w !! (idx, chunk_id video j))).
  - apply preserves_bind; [intros w0; reflexivity|]. intros _.
    unfold lift, bind at 1. simpl json_loads. cbv iota beta.
    unfold bind at 1, create_chunks_of. rewrite Hchunks.
    apply preserves_bind; [|intros _; intros w0; reflexivity].
    apply upsert_chunks_frame. intros i Hi [= Heq].
    apply chunk_id_inj in Heq. lia.
  - intros e. apply preserves_print; [reflexivity | apply preserves_raise].
Qed.

Lemma stale_chunks_remain_witness :
  store (snd (index_video_transcript ex_services ex_env "v" (json_array ex_entries) None
                ex_stale_world))
    !! (resolve_index_name ex_env None, "v" +:+ "_chunk_" +:+ pretty 1%nat)
  = store ex_stale_world !! (resolve_index_name ex_env None, "v" +:+ "_chunk_" +:+ pretty 1%nat).
Proof.
  apply (stale_chunks_remain ex_services ex_env "v" ex_entries None [ex_chunk0] 1
           ex_stale_world).
  - vm_compute. reflexivity.
  - simpl. lia.
Defined.

Section Keeps.
Context (R : world -> world -> Prop) (Rrefl : forall w, R w w)
        (Rtrans : forall a b c, R a b -> R b c -> R a c).

Lemma keeps_quiet {A} (m : M A) : (forall w, snd (m w) = w) -> keeps R m.
Proof. intros H w. rewrite H. apply Rrefl. Qed.

Lemma keeps_bind {A B} (m : M A) (k : A -> M B) :
  keeps R m -> (forall a, keeps R (k a)) -> keeps R (bind m k).
Proof.
  intros Hm Hk w. unfold bind. specialize (Hm w).
  destruct (m w) as [[a|e] w1]; simpl in *; [|exact Hm].
  eapply Rtrans; [exact Hm | apply Hk].
Qed.

Lemma keeps_try {A} (body : M A) (handler : exn -> M A) :
  keeps R body -> (forall e, keeps R (handler e)) -> keeps R (try_except body handler).
Proof.
  intros Hm Hk w. unfold try_except. specialize (Hm w).
  destruct (body w) as [[a|e] w1]; simpl in *; [exact Hm|].
  eapply Rtrans; [exact Hm | apply Hk].
Qed.
End Keeps.

Lemma nothing_removed_refl (w : world) : nothing_removed w w.
Proof. intros key H. exact H. Qed.

Lemma nothing_removed_trans (a b c : world) :
  nothing_removed a b -> nothing_removed b c -> nothing_removed a c.
Proof. intros Hab Hbc key H. apply Hbc, Hab, H. Qed.

Lemma nothing_removed_same_store (w w' : world) :
  store w' = store w -> nothing_removed w w'.
Proof. intros H key. now rewrite H. Qed.

Lemma keeps_store_upsert_chunks (svc : services) (name video : string)
    (chunks : list chunk) :
  forall i, keeps nothing_removed (upsert_chunks svc name video i chunks).
Proof.
  induction chunks as [|c chunks IH]; intros i; simpl.
  - apply keeps_quiet; [apply nothing_removed_refl | reflexivity].
  - apply keeps_bind; [apply nothing_removed_trans| |].
    + intros w. apply nothing_removed_same_store.
      apply (preserves_get_embedding store svc (c_text c)); reflexivity.
    + intros v. apply keeps_bind; [apply nothing_removed_trans| |intros _; apply IH].
      intros w. unfold call_upsert.
      destruct (upsert_rejects svc w name _); [now apply nothing_removed_same_store|].
      intros key Hkey. simpl. apply lookup_insert_is_Some.
      destruct (decide ((name, chunk_id video i) = key)); [now left | now right].
Qed.

(** X7: [index_video_transcript] never removes a vector from the
    store: every key that held a vector before the call holds one after
    it, whatever the outcome. *)
Theorem indexing_never_deletes (svc : services) (env : gmap string string)
    (video : string) (td : json_text) (name : option string) (w : world)
    (key : string * string) :
  is_Some (store w !! key) ->
  is_Some (store (snd (index_video_transcript svc env video td name w)) !! key).
Proof.
  intros Hkey. revert key Hkey.
  change (nothing_removed w (snd (index_video_transcript svc env video td name w))).
  revert w. change (keeps nothing_removed (index_video_transcript svc env video td name)).
  unfold index_video_transcript.
  destruct (truthy (getenv env "PINECONE_API_KEY")) as [k|];
    [|apply keeps_quiet; [apply nothing_removed_refl | reflexivity]].
  apply keeps_try; [apply nothing_removed_trans| |].
  - apply keeps_bind; [apply nothing_removed_trans| |].
    + intros w. now apply nothing_removed_same_store.
    + intros _. apply keeps_bind; [apply nothing_removed_trans| |].
      * apply keeps_quiet; [apply nothing_removed_refl | reflexivity].
      * intros transcript. apply keeps_bind; [apply nothing_removed_trans| |].
        -- apply keeps_quiet; [apply nothing_removed_refl | reflexivity].
        -- intros chunks. apply keeps_bind; [apply nothing_removed_trans| |].
           ++ apply keeps_store_upsert_chunks.
           ++ intros _ w. now apply nothing_removed_same_store.
  - intros e. apply keeps_bind; [apply nothing_removed_trans| |].
    + intros w. now apply nothing_removed_same_store.
    + intros _. apply keeps_quiet; [apply nothing_removed_refl | reflexivity].
Qed.

Lemma indexing_never_deletes_witness :
  is_Some (store (snd (index_video_transcript ex_services ex_env "v" (json_array ex_entries)
                         None ex_stale_world)) !! ("video-search", "v_chunk_1")).
Proof.
  apply (indexing_never_deletes ex_services ex_env "v" (json_array ex_entries) None
           ex_stale_world ("video-search", "v_chunk_1")).
  vm_compute. eexists. reflexivity.
Defined.





(** * Further properties of the retriever *)

Section PreservesCalls.
Context {X : Type} (f : world -> X)
        (Hprinted : forall line w, f (printed line w) = f w)
        (Hembedding : forall req w, f (embedding_asked req w) = f w).

Lemma preserves_upsert_chunks (svc : services) (name video : string) (chunks : list chunk) :
  (forall n it w, f (upsert_asked n it w) = f w) ->
  (forall n it w, f (upsert_stored n it w) = f w) ->
  forall i, preserves f (upsert_chunks svc name video i chunks).
Proof.
  intros Hasked Hstored. induction chunks as [|c chunks IH]; intros i; simpl.
  - apply preserves_ret.
  - apply preserves_bind; [now apply preserves_get_embedding|]. intros v.
    apply preserves_bind; [|intros _; apply IH].
    intros w. unfold call_upsert.
    destruct (upsert_rejects svc w name _); simpl; [apply Hasked | apply Hstored].
Qed.

(** What [search_videos] does once it holds the index handle. *)
Lemma preserves_search_body (svc : services) (index_name query : string) (top_k : Z) :
  (forall q w, f (query_asked q w) = f w) ->
  preserves f
    (query_embedding <-- get_embedding svc query;
     results <-- call_query svc (mk_query index_name query_embedding top_k true);
     print "[bold green]✓[/bold green] Search completed successfully" >>
     ret (map result_of_match results)).
Proof.
  intros Hquery.
  apply preserves_bind; [now apply preserves_get_embedding|]. intros v.
  apply preserves_bind; [intros w; apply Hquery|]. intros results.
  apply preserves_print; [apply Hprinted | apply preserves_ret].
Qed.

Lemma preserves_search_videos (svc : services) (env : gmap string string)
    (query : string) (top_k : Z) (name : option string) :
  (forall k n w, f (index_asked k n w) = f w) ->
  (forall q w, f (query_asked q w) = f w) ->
  preserves f (search_videos svc env query top_k name).
Proof.
  intros Hindex Hquery. unfold search_videos.
  destruct (truthy (getenv env "PINECONE_API_KEY")) as [key|]; [|apply preserves_raise].
  apply preserves_try.
  - apply preserves_bind; [intros w; apply Hindex|]. intros _.
    now apply preserves_search_body.
  - intros e. apply preserves_print; [apply Hprinted | apply preserves_raise].
Qed.
End PreservesCalls.

(** X10: [search_videos] only reads: whatever its outcome, the store,
    the upserts and the transcript requests are as before the call, and
    it has sent at most one embedding request and at most one query. *)
Theorem search_videos_reads_only (svc : services) (env : gmap string string)
    (query : string) (top_k : Z) (name : option string) (w : world) :
  store (snd (search_videos svc env query top_k name w)) = store w /\
  upsert_calls (snd (search_videos svc env query top_k name w)) = upsert_calls w /\
  transcript_calls (snd (search_videos svc env query top_k name w)) = transcript_calls w /\
  (exists reqs,
      embed_calls (snd (search_videos svc env query top_k name w)) = embed_calls w ++ reqs /\
      (length reqs <= 1)%nat) /\
  (exists qs,
      query_calls (snd (search_videos svc env query top_k name w)) = query_calls w ++ qs /\
      (length qs <= 1)%nat).
Proof.
  split; [apply (preserves_search_videos store); reflexivity|].
  split; [apply (preserves_search_videos upsert_calls); reflexivity|].
  split; [apply (preserves_search_videos transcript_calls); reflexivity|].
  destruct (search_videos svc env query top_k name w) as [r w'] eqn:Hrun.
  unfold search_videos in Hrun.
  destruct (truthy (getenv env "PINECONE_API_KEY")) as [key|].
  2:{ injection Hrun as _ <-.
      split; exists []; simpl; rewrite app_nil_r; (split; [reflexivity | lia]). }
  unfold try_except, bind at 1, call_pinecone_index in Hrun.
  destruct (pinecone_index svc w key (resolve_index_name env name)) as [e|].
  { injection Hrun as _ <-.
    split; exists []; simpl; rewrite app_nil_r; (split; [reflexivity | lia]). }
  unfold bind at 1 in Hrun.
  destruct (embed_content svc (index_asked key (resolve_index_name env name) w)
                          (document_request query)) as [v|e] eqn:Hv.
  - rewrite (get_embedding_ok _ _ _ _ Hv) in Hrun. unfold bind at 1, call_query in Hrun.
    destruct (pinecone_query svc _ _) as [ms|e]; injection Hrun as _ <-; simpl;
      (split; [exists [document_request query] | eexists [_]]; simpl;
       (split; [reflexivity | lia])).
  - rewrite (get_embedding_raise _ _ _ _ Hv) in Hrun. injection Hrun as _ <-. simpl.
    split; [exists [document_request query] | exists []]; simpl;
      rewrite ?app_nil_r; (split; [reflexivity | lia]).
Qed.




(** * [check_environment] *)

Lemma truthy_Some (o : option string) (v : string) :
  truthy o = Some v <-> o = Some v /\ v <> "".
Proof.
  unfold truthy. destruct o as [u|]; [|split; [discriminate | intros [[=] _]]].
  destruct (decide (u = "")) as [->|Hne]; split.
  - discriminate.
  - intros [[= <-] Hv]. congruence.
  - intros [= <-]. auto.
  - intros [[= <-] _]. reflexivity.
Qed.

(** X13: [check_environment] never raises; it answers [True] exactly
    when both [GEMINI_API_KEY] and [PINECONE_API_KEY] are set to a
    non-empty value, and then prints nothing; otherwise it prints two
    lines, about the Gemini key when that one is missing and about the
    Pinecone key only when the Gemini key is set. *)
Theorem check_environment_answer (env : gmap string string) (w : world) :
  (exists b, fst (check_environment env w) = Ok b) /\
  (fst (check_environment env w) = Ok true <->
   (exists g p, env !! "GEMINI_API_KEY" = Some g /\ g <> "" /\
                env !! "PINECONE_API_KEY" = Some p /\ p <> "")) /\
  (fst (check_environment env w) = Ok true -> snd (check_environment env w) = w) /\
  (truthy (env !! "GEMINI_API_KEY") = None ->
   console (snd (check_environment env w))
   = console w ++ ["[red]Error: GEMINI_API_KEY not found in environment variables[/red]";
                   "Please make sure you have set up your .env file with your Google API key"]) /\
  (truthy (env !! "GEMINI_API_KEY") <> None ->
   truthy (env !! "PINECONE_API_KEY") = None ->
   console (snd (check_environment env w))
   = console w ++ ["[red]Error: PINECONE_API_KEY not found in environment variables[/red]";
                   "Please make sure you have set up your .env file with your Pinecone API key"]).
Proof.
  unfold check_environment, getenv.
  destruct (truthy (env !! "GEMINI_API_KEY")) as [g|] eqn:Hg.
  - destruct (truthy (env !! "PINECONE_API_KEY")) as [p|] eqn:Hp.
    + apply truthy_Some in Hg as [Hg Hgne]. apply truthy_Some in Hp as [Hp Hpne].
      split; [now exists true|]. split; [split; [intros _; eauto 10 | reflexivity]|].
      split; [reflexivity|]. split; [discriminate|]. intros _. discriminate.
    + split; [now exists false|]. split.
      * split; [discriminate|]. intros (g' & p' & _ & _ & Hp' & Hpne).
        assert (Hsome : truthy (env !! "PINECONE_API_KEY") = Some p')
          by now apply truthy_Some.
        congruence.
      * split; [discriminate|]. split; [discriminate|]. intros _ _.
        simpl. now rewrite <- app_assoc.
  - split; [now exists false|]. split.
    + split; [discriminate|]. intros (g' & p' & Hg' & Hgne & _).
      assert (Hsome : truthy (env !! "GEMINI_API_KEY") = Some g')
        by now apply truthy_Some.
      congruence.
    + split; [discriminate|]. split; [|intros Hcontra; congruence].
      intros _. simpl. now rewrite <- app_assoc.
Qed.

Lemma handle_requested_once {A} (svc : services) (key idx : string) (rest : M A)
    (handler : exn -> M A) (w : world) :
  preserves index_calls rest -> (forall e, preserves index_calls (handler e)) ->
  index_calls (snd (try_except (call_pinecone_index svc key idx >> rest) handler w))
  = index_calls w ++ [(key, idx)].
Proof.
  intros Hrest Hhandler. unfold try_except, bind, call_pinecone_index.
  destruct (pinecone_index svc w key idx) as [e|].
  - now rewrite Hhandler.
  - specialize (Hrest (index_asked key idx w)).
    destruct (rest (index_asked key idx w)) as [[a|e] w']; simpl in *.
    + exact Hrest.
    + now rewrite Hhandler, Hrest.
Qed.

(** X14: an environment that passes [check_environment] lets both
    [index_video_transcript] and [search_videos] past their own key
    check: each asks for the index handle, exactly once and with the
    value of [PINECONE_API_KEY], whatever happens afterwards. *)
Theorem environment_check_guards_the_key (env : gmap string string) (w0 : world) :
  fst (check_environment env w0) = Ok true ->
  exists key,
    env !! "PINECONE_API_KEY" = Some key /\ key <> "" /\
    forall (svc : services) (w : world),
      (forall video td name,
          index_calls (snd (index_video_transcript svc env video td name w))
          = index_calls w ++ [(key, resolve_index_name env name)]) /\
      (forall query top_k name,
          index_calls (snd (search_videos svc env query top_k name w))
          = index_calls w ++ [(key, resolve_index_name env name)]).
Proof.
  unfold check_environment. intros Hpass.
  destruct (truthy (getenv env "GEMINI_API_KEY")) as [g|]; [|discriminate].
  destruct (truthy (getenv env "PINECONE_API_KEY")) as [key|] eqn:Hkey; [|discriminate].
  pose proof Hkey as Hk. apply truthy_Some in Hk as [Hset Hne].
  exists key. split; [exact Hset|]. split; [exact Hne|]. intros svc w. split.
  - intros video td name. unfold index_video_transcript. rewrite Hkey.
    apply handle_requested_once.
    + apply preserves_bind; [apply preserves_lift|]. intros transcript.
      apply preserves_bind; [apply preserves_lift|]. intros chunks.
      apply preserves_bind; [|intros _; intros w1; reflexivity].
      apply preserves_upsert_chunks; reflexivity.
    + intros e. apply preserves_print; [reflexivity | apply preserves_raise].
  - intros query top_k name. unfold search_videos. rewrite Hkey.
    apply handle_requested_once.
    + apply preserves_search_body; reflexivity.
    + intros e. apply preserves_print; [reflexivity | apply preserves_raise].
Qed.

Lemma environment_check_guards_the_key_witness :
  exists key,
    ex_full_env !! "PINECONE_API_KEY" = Some key /\ key <> "" /\
    forall (svc : services) (w : world),
      (forall video td name,
          index_calls (snd (index_video_transcript svc ex_full_env video td name w))
          = index_calls w ++ [(key, resolve_index_name ex_full_env name)]) /\
      (forall query top_k name,
          index_calls (snd (search_videos svc ex_full_env query top_k name w))
          = index_calls w ++ [(key, resolve_index_name ex_full_env name)]).
Proof.
  apply (environment_check_guards_the_key ex_full_env empty_world).
  vm_compute. reflexivity.
Defined.

(** * Texts, occurrences and cuts *)

Lemma append_empty_r (a : string) : a +:+ "" = a.
Proof.
  induction a as [|x a IH]; [reflexivity|].
  change (String x (a +:+ "") = String x a). now rewrite IH.
Qed.

Lemma append_cons (c : Ascii.ascii) (a b : string) :
  String c a +:+ b = String c (a +:+ b).
Proof. reflexivity. Qed.

Lemma chars_app (a b : string) : chars (a +:+ b) = chars a ++ chars b.
Proof.
  induction a as [|x a IH]; [reflexivity|].
  rewrite append_cons. unfold chars in *. simpl. now rewrite IH.
Qed.

Lemma prefix_cons (a b : Ascii.ascii) (p s : string) :
  String.prefix (String a p) (String b s) = true -> a = b /\ String.prefix p s = true.
Proof. simpl. destruct (Ascii.ascii_dec a b); [auto | discriminate]. Qed.

Lemma prefix_self (p s : string) : String.prefix p (p +:+ s) = true.
Proof.
  induction p as [|a p IH]; [now destruct s|].
  rewrite append_cons. simpl. destruct (Ascii.ascii_dec a a); [exact IH | congruence].
Qed.

Lemma prefix_nil (p : string) : String.prefix p "" = true -> p = "".
Proof. destruct p; [reflexivity | discriminate]. Qed.

Lemma string_drop_app (p s : string) : string_drop (String.length p) (p +:+ s) = s.
Proof. induction p as [|a p IH]; [reflexivity | exact IH]. Qed.

Lemma string_drop_length (n : nat) (s : string) :
  (String.length (string_drop n s) <= String.length s)%nat.
Proof.
  revert s. induction n as [|n IH]; intros s; [simpl; lia|].
  destruct s as [|c s]; simpl; [lia|]. specialize (IH s). lia.
Qed.

(** An occurrence at the front of [t +:+ c r] lies inside [t] up to its
    first [c]. *)
Lemma prefix_boundary (sep : string) :
  forall (t : string) (c : Ascii.ascii) (r : string),
    String.prefix sep (t +:+ String c r) = true ->
    incl (chars (until_char c sep)) (chars t).
Proof.
  induction sep as [|a sep IH]; intros t c r Hp; [intros x []|].
  destruct t as [|b t].
  - change ("" +:+ String c r) with (String c r) in Hp.
    apply prefix_cons in Hp as [-> _]. simpl.
    destruct (Ascii.ascii_dec c c); [intros x [] | congruence].
  - rewrite append_cons in Hp. apply prefix_cons in Hp as [-> Hp].
    apply IH in Hp. simpl. destruct (Ascii.ascii_dec b c); [intros x []|].
    intros x [<-|Hx]; [now left | right; now apply Hp].
Qed.

Lemma prefix_inside (sep : string) :
  forall t : string, String.prefix sep t = true -> incl (chars sep) (chars t).
Proof.
  induction sep as [|a sep IH]; intros t Hp; [intros x []|].
  destruct t as [|b t]; [discriminate|].
  apply prefix_cons in Hp as [-> Hp]. apply IH in Hp.
  intros x [<-|Hx]; [now left | right; now apply Hp].
Qed.

Lemma no_start_boundary (sep : string) (x c : Ascii.ascii) (r : string) :
  In x (chars (until_char c sep)) ->
  forall t, ~ In x (chars t) -> no_start sep t (String c r).
Proof.
  intros Hx. induction t as [|b t IH]; intros Hnot; [exact I|].
  split.
  - destruct (String.prefix sep (String b (t +:+ String c r))) eqn:Hp; [|reflexivity].
    rewrite <- append_cons in Hp. apply prefix_boundary in Hp.
    exfalso. apply Hnot. now apply Hp.
  - apply IH. intros Hin. apply Hnot. now right.
Qed.

Lemma no_start_end (sep : string) (x : Ascii.ascii) :
  In x (chars sep) -> forall t, ~ In x (chars t) -> no_start sep t "".
Proof.
  intros Hx. induction t as [|b t IH]; intros Hnot; [exact I|].
  split.
  - destruct (String.prefix sep (String b (t +:+ ""))) eqn:Hp; [|reflexivity].
    rewrite append_empty_r in Hp. apply prefix_inside in Hp.
    exfalso. apply Hnot. now apply Hp.
  - apply IH. intros Hin. apply Hnot. now right.
Qed.

Lemma no_start_first_char (x : Ascii.ascii) (sep' s : string) :
  forall t, ~ In x (chars t) -> no_start (String x sep') t s.
Proof.
  induction t as [|b t IH]; intros Hnot; [exact I|].
  split.
  - simpl. destruct (Ascii.ascii_dec x b) as [->|]; [|reflexivity].
    exfalso. apply Hnot. now left.
  - apply IH. intros Hin. apply Hnot. now right.
Qed.

Lemma find_sep_cons (sep : string) (c : Ascii.ascii) (s : string) :
  find_sep sep (String c s)
  = if String.prefix sep (String c s)
    then Some ("", string_drop (String.length sep) (String c s))
    else match find_sep sep s with
         | Some (before, after) => Some (String c before, after)
         | None => None
         end.
Proof. reflexivity. Qed.

Lemma contains_cons (sep : string) (c : Ascii.ascii) (s : string) :
  contains sep (String c s) = String.prefix sep (String c s) || contains sep s.
Proof. reflexivity. Qed.

(** Where no occurrence starts inside [t], the leftmost occurrence in
    [t +:+ s] is the leftmost one in [s]. *)
Lemma find_sep_skip (sep s : string) :
  forall t, no_start sep t s ->
    find_sep sep (t +:+ s)
    = match find_sep sep s with
      | Some (before, after) => Some (t +:+ before, after)
      | None => None
      end.
Proof.
  induction t as [|c t IH]; intros Hno.
  - change ("" +:+ s) with s. now destruct (find_sep sep s) as [[b a]|].
  - destruct Hno as [Hp Hno]. rewrite append_cons, find_sep_cons, Hp.
    rewrite (IH Hno). now destruct (find_sep sep s) as [[b a]|].
Qed.

Lemma contains_skip (sep s : string) :
  forall t, no_start sep t s -> contains sep (t +:+ s) = contains sep s.
Proof.
  induction t as [|c t IH]; intros Hno; [reflexivity|].
  destruct Hno as [Hp Hno]. rewrite append_cons, contains_cons, Hp.
  simpl. now apply IH.
Qed.

Lemma prefix_app (s : string) :
  forall p u, String.prefix p u = true -> String.prefix p (u +:+ s) = true.
Proof.
  induction p as [|a p IH]; intros u Hp; [now destruct (u +:+ s)|].
  destruct u as [|b u]; [apply prefix_nil in Hp; discriminate|].
  apply prefix_cons in Hp as [-> Hp]. rewrite append_cons. simpl.
  destruct (Ascii.ascii_dec b b); [now apply IH | congruence].
Qed.

Lemma contains_app_l (sep s : string) :
  forall t, contains sep t = true -> contains sep (t +:+ s) = true.
Proof.
  induction t as [|c t IH]; intros Hc.
  - simpl in Hc. rewrite orb_false_r in Hc. apply prefix_nil in Hc as ->.
    now destruct s.
  - rewrite contains_cons in Hc. apply orb_true_iff in Hc as [Hp|Hc];
      rewrite append_cons, contains_cons; apply orb_true_iff.
    + left. rewrite <- append_cons. now apply prefix_app.
    + right. now apply IH.
Qed.

Lemma find_sep_none (sep s : string) : contains sep s = false -> find_sep sep s = None.
Proof.
  induction s as [|c s IH]; intros Hc.
  - simpl in *. rewrite orb_false_r in Hc. now rewrite Hc.
  - rewrite contains_cons in Hc. apply orb_false_iff in Hc as [Hp Hc].
    now rewrite find_sep_cons, Hp, (IH Hc).
Qed.

Lemma find_sep_some (sep s : string) :
  contains sep s = true -> exists before after, find_sep sep s = Some (before, after).
Proof.
  induction s as [|c s IH]; intros Hc.
  - simpl in *. rewrite orb_false_r in Hc. rewrite Hc. eauto.
  - rewrite contains_cons in Hc. rewrite find_sep_cons.
    destruct (String.prefix sep (String c s)); [eauto|]. simpl in Hc.
    destruct (IH Hc) as (b & a & ->). eauto.
Qed.

Lemma find_sep_by_char (sep s : string) (x : Ascii.ascii) :
  In x (chars sep) -> ~ In x (chars s) -> find_sep sep s = None.
Proof.
  intros Hx Hnot.
  pose proof (find_sep_skip sep "" s (no_start_end sep x Hx s Hnot)) as H.
  rewrite append_empty_r in H. rewrite H.
  destruct sep as [|a sep]; [destruct Hx | reflexivity].
Qed.

(** Each cut leaves a shorter text behind. *)
Lemma find_sep_shorter (sep s before after : string) :
  sep <> "" -> find_sep sep s = Some (before, after) ->
  (String.length after < String.length s)%nat.
Proof.
  intros Hsep. destruct sep as [|a0 sep]; [congruence|]. clear Hsep.
  revert before. induction s as [|c s IH]; intros before.
  - simpl. discriminate.
  - rewrite find_sep_cons. destruct (String.prefix (String a0 sep) (String c s)) eqn:Hp.
    + intros [= _ <-]. simpl.
      pose proof (string_drop_length (String.length sep) s). lia.
    + destruct (find_sep (String a0 sep) s) as [[b a]|]; [|discriminate].
      intros [= _ <-]. specialize (IH b eq_refl). simpl. lia.
Qed.

Lemma split_at_head (sep s : string) (fuel : nat) :
  sep <> "" -> (String.length s <= fuel)%nat ->
  split_at fuel sep s !! 0%nat = Some (first_part sep s).
Proof.
  intros Hsep Hfuel. unfold first_part.
  destruct (find_sep sep s) as [[b a]|] eqn:Hf.
  - pose proof (find_sep_shorter sep s b a Hsep Hf).
    destruct fuel as [|fuel]; [lia|]. simpl. now rewrite Hf.
  - destruct fuel; simpl; now rewrite Hf.
Qed.

(** The first and the second part of [s.split(sep)]. *)
Lemma py_split_first (sep s : string) :
  sep <> "" ->
  (parts <-! py_split sep s; py_index parts 0) = Ok (first_part sep s).
Proof.
  intros Hsep. unfold py_split. destruct (decide (sep = "")); [congruence|]. simpl.
  unfold py_index. now rewrite split_at_head by (assumption || lia).
Qed.

Lemma py_split_second (sep s : string) :
  sep <> "" ->
  (parts <-! py_split sep s; py_index parts 1)
  = match find_sep sep s with
    | Some (_, after) => Ok (first_part sep after)
    | None => Raise (Exn "IndexError" "list index out of range")
    end.
Proof.
  intros Hsep. unfold py_split. destruct (decide (sep = "")); [congruence|]. simpl.
  unfold py_index.
  destruct (find_sep sep s) as [[b a]|] eqn:Hf.
  - pose proof (find_sep_shorter sep s b a Hsep Hf).
    destruct (String.length s) as [|fuel] eqn:Hlen; [lia|]. simpl. rewrite Hf.
    simpl. now rewrite split_at_head by (assumption || lia).
  - destruct (String.length s); simpl; now rewrite Hf.
Qed.

Lemma result_bind_assoc {A B C} (m : result A) (f : A -> result B) (g : B -> result C) :
  result_bind (result_bind m f) g = result_bind m (fun x => result_bind (f x) g).
Proof. now destruct m. Qed.

(** The id that the two branches of the extraction give. *)
Lemma extract_video_id_parts (url : string) :
  extract_video_id url
  = if contains "youtube.com/watch?v=" url
    then match find_sep "watch?v=" url with
         | Some (_, after) => Ok (first_part "&" (first_part "watch?v=" after))
         | None => Raise (Exn "IndexError" "list index out of range")
         end
    else match find_sep "youtu.be/" url with
         | Some (_, after) => Ok (first_part "?" (first_part "youtu.be/" after))
         | None => Raise (Exn "IndexError" "list index out of range")
         end.
Proof.
  unfold extract_video_id.
  destruct (contains "youtube.com/watch?v=" url).
  - rewrite <- (result_bind_assoc (py_split "watch?v=" url)
                  (fun parts => py_index parts 1)
                  (fun tail => parts <-! py_split "&" tail; py_index parts 0)).
    rewrite (py_split_second "watch?v=" url) by discriminate.
    destruct (find_sep "watch?v=" url) as [[b a]|]; [|reflexivity].
    simpl. apply (py_split_first "&"). discriminate.
  - rewrite <- (result_bind_assoc (py_split "youtu.be/" url)
                  (fun parts => py_index parts 1)
                  (fun tail => parts <-! py_split "?" tail; py_index parts 0)).
    rewrite (py_split_second "youtu.be/" url) by discriminate.
    destruct (find_sep "youtu.be/" url) as [[b a]|]; [|reflexivity].
    simpl. apply (py_split_first "?"). discriminate.
Qed.

Lemma find_sep_self (sep s : string) :
  sep <> "" -> find_sep sep (sep +:+ s) = Some ("", s).
Proof.
  intros Hsep. destruct sep as [|a sep]; [congruence|].
  rewrite append_cons, find_sep_cons, <- append_cons, prefix_self.
  now rewrite string_drop_app.
Qed.

Lemma contains_by_char (sep s : string) (x : Ascii.ascii) :
  In x (chars sep) -> ~ In x (chars s) -> contains sep s = false.
Proof.
  intros Hx Hnot.
  pose proof (contains_skip sep "" s (no_start_end sep x Hx s Hnot)) as H.
  rewrite append_empty_r in H. rewrite H.
  destruct sep as [|a sep]; [destruct Hx | reflexivity].
Qed.

(** Cutting at [sep] and then at the character [c] gives back an id
    that is followed by [c], when the id has neither [c] nor some
    character that [sep] has before its first [c]. *)
Lemma cut_before_char (a0 : Ascii.ascii) (sep' : string) (c x : Ascii.ascii)
    (id rest : string) :
  a0 <> c -> In x (chars (until_char c (String a0 sep'))) ->
  ~ In x (chars id) -> ~ In c (chars id) ->
  first_part (String c "") (first_part (String a0 sep') (id +:+ String c rest)) = id.
Proof.
  intros Hac Hx Hnx Hnc.
  assert (Hfirst : exists z, first_part (String a0 sep') (id +:+ String c rest)
                             = id +:+ String c z).
  { unfold first_part.
    rewrite (find_sep_skip _ _ id (no_start_boundary _ x c rest Hx id Hnx)).
    rewrite find_sep_cons. simpl String.prefix.
    destruct (Ascii.ascii_dec a0 c); [congruence|].
    destruct (find_sep (String a0 sep') rest) as [[b a]|]; eauto. }
  destruct Hfirst as [z ->]. unfold first_part.
  rewrite (find_sep_skip _ _ id (no_start_first_char c "" (String c z) id Hnc)).
  change (String c z) with (String c "" +:+ z).
  rewrite (find_sep_self (String c "") z) by discriminate.
  apply append_empty_r.
Qed.

Lemma cut_whole (sep : string) (c x : Ascii.ascii) (id : string) :
  In x (chars sep) -> ~ In x (chars id) -> ~ In c (chars id) ->
  first_part (String c "") (first_part sep id) = id.
Proof.
  intros Hx Hnx Hnc. unfold first_part.
  rewrite (find_sep_by_char sep id x Hx Hnx).
  now rewrite (find_sep_by_char (String c "") id c (or_introl eq_refl) Hnc).
Qed.

(** The two usual forms of a video URL, before the id. *)
Lemma watch_url_parts (y : string) :
  contains "youtube.com/watch?v=" ("https://www.youtube.com/watch?v=" +:+ y) = true /\
  find_sep "watch?v=" ("https://www.youtube.com/watch?v=" +:+ y)
  = Some ("https://www.youtube.com/", y).
Proof.
  split.
  - apply contains_app_l. vm_compute. reflexivity.
  - change ("https://www.youtube.com/watch?v=" +:+ y)
      with ("https://www.youtube.com/" +:+ ("watch?v=" +:+ y)).
    rewrite find_sep_skip.
    + now rewrite find_sep_self by discriminate.
    + cbn [no_start]. repeat split; vm_compute; reflexivity.
Qed.

Lemma short_url_parts (y : string) :
  contains "youtube.com/watch?v=" ("https://youtu.be/" +:+ y)
  = contains "youtube.com/watch?v=" y /\
  find_sep "youtu.be/" ("https://youtu.be/" +:+ y) = Some ("https://", y).
Proof.
  split.
  - apply contains_skip. cbn [no_start]. repeat split; vm_compute; reflexivity.
  - change ("https://youtu.be/" +:+ y) with ("https://" +:+ ("youtu.be/" +:+ y)).
    rewrite find_sep_skip.
    + now rewrite find_sep_self by discriminate.
    + cbn [no_start]. repeat split; vm_compute; reflexivity.
Qed.

(** * URLs *)

(** X15: [validate_youtube_url] accepts exactly the URLs from which the
    extraction that [process_video] repeats gives a video id that is not
    empty; so a URL that passed the validation never makes the
    extraction in [process_video] fail. *)
Theorem validation_agrees_with_extraction (url : string) :
  validate_youtube_url url = true <->
  exists id, extract_video_id url = Ok id /\ id <> "".
Proof.
  assert (Hlen : forall vid : string,
             (0 <? String.length vid)%nat = true <-> vid <> "").
  { intros [|c vid]; simpl; split; try congruence; try discriminate; auto. }
  unfold validate_youtube_url.
  destruct (contains "youtube.com/watch?v=" url) eqn:HA; simpl.
  - destruct (extract_video_id url) as [vid|e].
    + rewrite Hlen. split; [eauto|]. now intros (id & [= <-] & Hne).
    + split; [discriminate|]. now intros (id & [=] & _).
  - destruct (contains "youtu.be/" url) eqn:HB; simpl.
    + destruct (extract_video_id url) as [vid|e].
      * rewrite Hlen. split; [eauto|]. now intros (id & [= <-] & Hne).
      * split; [discriminate|]. now intros (id & [=] & _).
    + split; [discriminate|]. intros (id & Hid & _).
      rewrite extract_video_id_parts, HA, (find_sep_none _ _ HB) in Hid. discriminate.
Qed.

(** X16: the extraction gives back the id of a URL of either usual
    form, with or without parameters behind the id, for every id that
    has no ['&'], ['?'] or ['/'] in it. *)
Theorem video_id_round_trip (id rest : string) :
  plain_id id ->
  extract_video_id ("https://www.youtube.com/watch?v=" +:+ id) = Ok id /\
  extract_video_id ("https://www.youtube.com/watch?v=" +:+ id +:+ "&" +:+ rest) = Ok id /\
  extract_video_id ("https://youtu.be/" +:+ id) = Ok id /\
  (contains "youtube.com/watch?v=" rest = false ->
   extract_video_id ("https://youtu.be/" +:+ id +:+ "?" +:+ rest) = Ok id).
Proof.
  intros (Hamp & Hq & Hslash).
  assert (HqW : In "?"%char (chars "watch?v=")) by (vm_compute; tauto).
  assert (HsB : In "/"%char (chars "youtu.be/")) by (vm_compute; tauto).
  assert (HsA : In "/"%char (chars "youtube.com/watch?v=")) by (vm_compute; tauto).
  split; [|split; [|split]].
  - rewrite extract_video_id_parts.
    destruct (watch_url_parts id) as [-> ->]. f_equal.
    now apply (cut_whole "watch?v=" "&"%char "?"%char).
  - rewrite extract_video_id_parts.
    destruct (watch_url_parts (id +:+ "&" +:+ rest)) as [-> ->]. f_equal.
    apply (cut_before_char "w"%char "atch?v=" "&"%char "?"%char id rest);
      [discriminate | vm_compute; tauto | assumption | assumption].
  - rewrite extract_video_id_parts.
    destruct (short_url_parts id) as [-> ->].
    rewrite (contains_by_char _ _ _ HsA Hslash). f_equal.
    now apply (cut_whole "youtu.be/" "?"%char "/"%char).
  - intros Hrest. rewrite extract_video_id_parts.
    destruct (short_url_parts (id +:+ "?" +:+ rest)) as [-> ->].
    change ("?" +:+ rest) with (String "?"%char rest).
    rewrite (contains_skip "youtube.com/watch?v=" (String "?"%char rest) id).
    + rewrite contains_cons, Hrest. simpl. f_equal.
      apply (cut_before_char "y"%char "outu.be/" "?"%char "/"%char id rest);
        [discriminate | vm_compute; tauto | assumption | assumption].
    + apply (no_start_boundary _ "/"%char); [vm_compute; tauto | assumption].
Qed.

Lemma video_id_round_trip_witness :
  extract_video_id ("https://www.youtube.com/watch?v=" +:+ "aYK0H85E_oU") = Ok "aYK0H85E_oU" /\
  extract_video_id ("https://www.youtube.com/watch?v=" +:+ "aYK0H85E_oU" +:+ "&" +:+ "t=10s")
  = Ok "aYK0H85E_oU" /\
  extract_video_id ("https://youtu.be/" +:+ "aYK0H85E_oU") = Ok "aYK0H85E_oU" /\
  (contains "youtube.com/watch?v=" "t=10s" = false ->
   extract_video_id ("https://youtu.be/" +:+ "aYK0H85E_oU" +:+ "?" +:+ "t=10s")
   = Ok "aYK0H85E_oU").
Proof.
  apply (video_id_round_trip "aYK0H85E_oU" "t=10s").
  unfold plain_id. vm_compute. intuition congruence.
Defined.

(** * [process_video] *)

Lemma resolve_index_name_twice (env : gmap string string) (name : option string) :
  resolve_index_name env (Some (resolve_index_name env name)) = resolve_index_name env name.
Proof.
  unfold resolve_index_name at 1.
  destruct (truthy (Some (resolve_index_name env name))) as [v|] eqn:Hv.
  - apply truthy_Some in Hv as [[= ->] _]. reflexivity.
  - unfold truthy in Hv.
    destruct (decide (resolve_index_name env name = "")) as [Hempty|]; [|discriminate].
    unfold resolve_index_name in Hempty |- *.
    destruct (truthy name) as [v|] eqn:Hname; [|reflexivity].
    apply truthy_Some in Hname as [_ Hne]. congruence.
Qed.

(** The indexer looks at the index name only after resolving it. *)
Lemma index_video_transcript_resolved (svc : services) (env : gmap string string)
    (video : string) (td : json_text) (name : option string) :
  index_video_transcript svc env video td (Some (resolve_index_name env name))
  = index_video_transcript svc env video td name.
Proof.
  unfold index_video_transcript. now rewrite resolve_index_name_twice.
Qed.

(** What [get_json_transcript] hands on, by the answer of the service. *)
Lemma get_json_transcript_run (svc : services) (video : string) (w : world) :
  get_json_transcript svc video w
  = match get_transcript_api svc w video with
    | Ok captions => (Ok (json_array captions), transcript_asked video w)
    | Raise e => (Ok json_null,
                  printed ("An error occurred: " +:+ exn_msg e) (transcript_asked video w))
    end.
Proof.
  unfold get_json_transcript, get_transcript, try_except, bind, call_get_transcript.
  destruct (get_transcript_api svc w video); reflexivity.
Qed.

(** X17: for a URL that has neither "youtube.com/watch?v=" nor
    "youtu.be/" in it, which [validate_youtube_url] rejects,
    [process_video] raises [IndexError] after printing it; no
    collaborator has been contacted. *)
Theorem process_video_without_marker (svc : services) (env : gmap string string)
    (url : string) (name : option string) (w : world) :
  contains "youtube.com/watch?v=" url = false ->
  contains "youtu.be/" url = false ->
  validate_youtube_url url = false /\
  process_video svc env url name w
  = (Raise (Exn "IndexError" "list index out of range"),
     printed "[red]Error processing video: list index out of range[/red]" w).
Proof.
  intros HA HB. split.
  - unfold validate_youtube_url. now rewrite HA, HB.
  - unfold process_video, try_except, bind at 1, lift.
    rewrite extract_video_id_parts, HA, (find_sep_none _ _ HB). reflexivity.
Qed.

Lemma process_video_without_marker_witness :
  validate_youtube_url "https://vimeo.com/76979871" = false /\
  process_video ex_services ex_env "https://vimeo.com/76979871" None empty_world
  = (Raise (Exn "IndexError" "list index out of range"),
     printed "[red]Error processing video: list index out of range[/red]" empty_world).
Proof.
  apply (process_video_without_marker ex_services ex_env "https://vimeo.com/76979871" None
           empty_world); vm_compute; reflexivity.
Defined.

(** X18: when the transcript service fails for the video of the URL,
    [process_video] still goes on to [index_video_transcript] with the
    text [null]: its own guard, "Could not get transcript ...", does not
    fire.  The call raises, nothing is embedded or upserted, and with
    the key set and the index handle obtained the exception is the
    [TypeError] of [len(None)], printed by both handlers after the line
    of [get_transcript]. *)
Theorem process_video_without_captions (svc : services) (env : gmap string string)
    (url : string) (name : option string) (video : string) (e : exn) (w : world) :
  extract_video_id url = Ok video ->
  get_transcript_api svc w video = Raise e ->
  exists e' w',
    process_video svc env url name w = (Raise e', w') /\
    embed_calls w' = embed_calls w /\ upsert_calls w' = upsert_calls w /\
    store w' = store w /\ transcript_calls w' = transcript_calls w ++ [video] /\
    forall key,
      truthy (getenv env "PINECONE_API_KEY") = Some key ->
      pinecone_index svc
        (printed ("An error occurred: " +:+ exn_msg e) (transcript_asked video w))
        key (resolve_index_name env name) = None ->
      e' = Exn "TypeError" "object of type 'NoneType' has no len()" /\
      console w'
      = console w
          ++ ["An error occurred: " +:+ exn_msg e;
              "[red]Error indexing video transcript: object of type 'NoneType' has no len()[/red]";
              "[red]Error processing video: object of type 'NoneType' has no len()[/red]"].
Proof.
  intros Hid He.
  unfold process_video, try_except, bind at 1, lift. rewrite Hid.
  unfold bind at 1. rewrite get_json_transcript_run, He.
  simpl text_is_empty. cbv iota. unfold bind at 1, ret.
  rewrite index_video_transcript_resolved.
  unfold bind at 1, index_video_transcript.
  destruct (truthy (getenv env "PINECONE_API_KEY")) as [key|] eqn:Hkey.
  - unfold try_except, bind at 1, call_pinecone_index.
    destruct (pinecone_index svc _ key (resolve_index_name env name)) as [e0|] eqn:Hidx.
    + eexists _, _. split; [reflexivity|]. do 4 (split; [reflexivity|]).
      intros key' [= <-] Hnone. congruence.
    + eexists _, _. split; [reflexivity|]. do 4 (split; [reflexivity|]).
      intros key' _ _. split; [reflexivity|].
      simpl. now rewrite <- !app_assoc.
  - eexists _, _. split; [reflexivity|]. do 4 (split; [reflexivity|]).
    intros key' [=].
Qed.

Lemma process_video_without_captions_witness :
  exists e' w',
    process_video ex_services ex_env "https://youtu.be/zz" None empty_world = (Raise e', w') /\
    embed_calls w' = embed_calls empty_world /\ upsert_calls w' = upsert_calls empty_world /\
    store w' = store empty_world /\
    transcript_calls w' = transcript_calls empty_world ++ ["zz"] /\
    forall key,
      truthy (getenv ex_env "PINECONE_API_KEY") = Some key ->
      pinecone_index ex_services
        (printed ("An error occurred: "
                    +:+ exn_msg (Exn "TranscriptsDisabled"
                                     "Subtitles are disabled for this video"))
                 (transcript_asked "zz" empty_world))
        key (resolve_index_name ex_env None) = None ->
      e' = Exn "TypeError" "object of type 'NoneType' has no len()" /\
      console w'
      = console empty_world
          ++ ["An error occurred: "
                +:+ exn_msg (Exn "TranscriptsDisabled" "Subtitles are disabled for this video");
              "[red]Error indexing video transcript: object of type 'NoneType' has no len()[/red]";
              "[red]Error processing video: object of type 'NoneType' has no len()[/red]"].
Proof.
  apply (process_video_without_captions ex_services ex_env "https://youtu.be/zz" None "zz"
           (Exn "TranscriptsDisabled" "Subtitles are disabled for this video") empty_world).
  - vm_compute. reflexivity.
  - reflexivity.
Defined.



(** * Runs of [search_transcript] and [check_environment] *)


Lemma check_environment_answer_witness :
  snd (check_environment ex_full_env empty_world) = empty_world /\
  console (snd (check_environment ex_env empty_world))
  = console empty_world
      ++ ["[red]Error: GEMINI_API_KEY not found in environment variables[/red]";
          "Please make sure you have set up your .env file with your Google API key"].
Proof.
  split.
  - apply (check_environment_answer ex_full_env empty_world).
    vm_compute. reflexivity.
  - apply (check_environment_answer ex_env empty_world).
    vm_compute. reflexivity.
Defined.
